(** * go-currency: atto-dollar currency values over math/big

    A shallow embedding of [currency.go] and a verification of its
    decimal-string codec ([parse], [stringify]) and of the arithmetic
    pass-throughs.

    Go strings are byte sequences; they are modelled as [list ascii].
    A [big.Int] is modelled as a [Z].  The [math/big] primitives the
    package relies on ([Int.String], [Int.SetString] in base 10, [Int.Quo],
    [Int.DivMod]) are modelled from the library's documented behaviour in the
    first part of the file; the second part follows [currency.go] function
    by function; the properties come last, the lemmas on digits, stripping
    and splitting first and the properties of the package after them. *)

From Stdlib Require Import ZArith Ascii String List Bool Lia.
Import ListNotations.
Open Scope Z_scope.

(** ** Go strings *)

Definition gostring := list ascii.

(** A string literal of the source. *)
Definition gs (s : string) : gostring := list_ascii_of_string s.

(** [len(s)], a Go [int]. *)
Definition len (s : gostring) : Z := Z.of_nat (length s).

(** [s[:n]] and [s[n:]].  Go panics when [n] is outside [0..len(s)]; every
    use below is guarded by a length test that keeps [n] in range, except
    [x[:oprec]] in [stringify], whose callers only pass [1..18]. *)
Definition slice_to (s : gostring) (n : Z) : gostring := firstn (Z.to_nat n) s.
Definition slice_from (s : gostring) (n : Z) : gostring := skipn (Z.to_nat n) s.

Definition is_dot (c : ascii) : bool := Ascii.eqb c "."%char.

(** [strings.Split(s, ".")]: the fields between the dots; a string with [k]
    dots has [k+1] fields, and the empty string has the single field [""]. *)
Fixpoint Split (s : gostring) : list gostring :=
  match s with
  | [] => [[]]
  | c :: r =>
      if is_dot c then [] :: Split r
      else match Split r with
           | h :: t => (c :: h) :: t
           | [] => [[c]]
           end
  end.

(** ** The math/big primitives *)

Definition is_digit (c : ascii) : bool :=
  let n := N_of_ascii c in ((48 <=? n) && (n <=? 57))%N.

Definition digit_val (c : ascii) : Z := Z.of_N (N_of_ascii c) - 48.

Definition digit_char (d : Z) : ascii := ascii_of_N (Z.to_N (d + 48)).

(** The number a sequence of decimal digits denotes, most significant first. *)
Definition dval (l : gostring) : Z :=
  fold_left (fun acc c => acc * 10 + digit_val c) l 0.

(** Decimal digits of a non-negative number, prepended to [acc]. *)
Fixpoint utoa (fuel : nat) (n : Z) (acc : gostring) : gostring :=
  match fuel with
  | O => acc
  | S k =>
      let acc' := digit_char (n mod 10) :: acc in
      if n / 10 =? 0 then acc' else utoa k (n / 10) acc'
  end.

Definition utoa_fuel (n : Z) : nat := S (Z.to_nat (Z.log2 n)).

(** [big.Int.String]: the canonical decimal text, ["-"] first when
    negative, no leading zeros, ["0"] for zero. *)
Definition Int_String (x : Z) : gostring :=
  if x <? 0 then "-"%char :: utoa (utoa_fuel (- x)) (- x) []
  else utoa (utoa_fuel x) x [].

(** [scanSign] of math/big: an optional leading ['+'] or ['-']. *)
Definition scanSign (s : gostring) : option (bool * gostring) :=
  match s with
  | [] => None
  | c :: r =>
      if Ascii.eqb c "-"%char then Some (true, r)
      else if Ascii.eqb c "+"%char then Some (false, r)
      else Some (false, s)
  end.

(** [big.Int.SetString(s, 10)]: an optional sign followed by one or more
    decimal digits, and nothing else; [None] is the [ok == false] result. *)
Definition SetString (s : gostring) : option Z :=
  match scanSign s with
  | None => None
  | Some (neg, ds) =>
      match ds with
      | [] => None
      | _ :: _ =>
          if forallb is_digit ds
          then Some (if neg then - dval ds else dval ds)
          else None
      end
  end.

(** A run-time panic ends the call; nothing in the package recovers. *)
Inductive runtime_error : Type := DivisionByZero.

Inductive outcome (A : Type) : Type :=
| Ret (a : A)
| Panic (e : runtime_error).
Arguments Ret {A} a.
Arguments Panic {A} e.

(** [big.Int.Quo]: truncated division; panics on a zero divisor. *)
Definition Int_Quo (x y : Z) : outcome Z :=
  if y =? 0 then Panic DivisionByZero else Ret (Z.quot x y).

(** [big.Int.DivMod]: [QuoRem] followed by the adjustment that makes the
    modulus non-negative; panics on a zero divisor. *)
Definition Int_DivMod (x y : Z) : outcome (Z * Z) :=
  if y =? 0 then Panic DivisionByZero
  else
    let q := Z.quot x y in
    let m := Z.rem x y in
    if m <? 0 then
      if y <? 0 then Ret (q + 1, m - y) else Ret (q - 1, m + y)
    else Ret (q, m).

(** [big.Int.Cmp]. *)
Definition Int_Cmp (x y : Z) : Z :=
  match x ?= y with Lt => -1 | Eq => 0 | Gt => 1 end.

(** ** currency.go *)

Record Currency : Type := mkCurrency { Int : Z }.

Definition eExp : Z := 18.

Definition wrap64 (z : Z) : Z := (z + 2 ^ 63) mod 2 ^ 64 - 2 ^ 63.

(** The loop of [pow64]: [b & 1] is the lowest bit of [b] and [b >>= 1]
    drops it, so the loop runs down the binary digits of [b]; [r] and [a]
    are [int64] and wrap around. *)
Fixpoint pow64_loop (r a : Z) (b : positive) : Z :=
  match b with
  | xH => wrap64 (r * a)
  | xO b' => pow64_loop r (wrap64 (a * a)) b'
  | xI b' => pow64_loop (wrap64 (r * a)) (wrap64 (a * a)) b'
  end.

Definition pow64 (a : Z) (b : Z) : Z :=
  match b with
  | Zpos p => pow64_loop 1 a p
  | _ => 1
  end.

(** [init]: the package constants. *)
Fixpoint init_zeroes (i : nat) : gostring :=
  match i with
  | O => []
  | S k => init_zeroes k ++ gs "0"
  end.

Definition zeroes : gostring := init_zeroes (Z.to_nat eExp).
Definition iMult : Z := pow64 10 eExp.
Definition iBigMult : Z := iMult.
Definition zero : Z := 0.

Definition New : Currency := mkCurrency 0.

Definition is_zero_char (c : ascii) : bool := Ascii.eqb c "0"%char.

Fixpoint zstripPre (s : gostring) : gostring :=
  match s with
  | [] => []
  | c :: r => if is_zero_char c then zstripPre r else s
  end.

(** The loop of [zstripPost], [j] being [i+1]. *)
Fixpoint zstripPost_loop (s : gostring) (j : nat) : gostring :=
  match j with
  | O => []
  | S i =>
      if is_zero_char (nth i s "0"%char) then zstripPost_loop s i
      else firstn (S i) s
  end.

Definition zstripPost (s : gostring) : gostring :=
  zstripPost_loop s (length s).

(** An [error] is its message. *)
Definition error := gostring.

Inductive result (A : Type) : Type :=
| Ok (a : A)
| Err (e : error).
Arguments Ok {A} a.
Arguments Err {A} e.

Definition Errorf (fmt : string) (s : gostring) : error := gs fmt ++ s.

(** The part of [parse] after the [switch].  [p] is the value the receiver
    holds on entry; the result is the value it holds on a [nil] return.
    After an error return the receiver is not meaningful
    ([SetString] leaves it undefined) and is not modelled. *)
Definition parse_fields (p : Z) (s pre post : gostring) : result Z :=
  match (if len pre >? 0 then SetString pre else Some p) with
  | None => Err (Errorf "invalid decimal " s)
  | Some p1 =>
      let post1 := if len post >? eExp then slice_to post eExp else post in
      let n := len post1 in
      let post2 := zstripPre post1 in
      match (if len post2 >? 0 then SetString post2 else Some 0) with
      | None => Err (Errorf "invalid fraction " s)
      | Some f =>
          let exp := eExp - n in
          let f1 := if exp >? 0 then f * pow64 10 exp else f in
          Ok (p1 * iBigMult + f1)
      end
  end.

Definition parse (p : Z) (s : gostring) : result Z :=
  match Split s with
  | [_] => parse_fields p s (zstripPre s) []
  | [v0; v1] => parse_fields p s (zstripPre v0) (zstripPost v1)
  | _ => Err (Errorf "malformed decimal " s)
  end.

Definition NewFromString (s : gostring) : result Currency :=
  if len s >? 0 then
    match parse 0 s with
    | Ok u => Ok (mkCurrency u)
    | Err e => Err e
    end
  else Ok (mkCurrency 0).

Definition stringify (b : Z) (oprec : Z) : gostring :=
  let s := Int_String b in
  let '(m, x) :=
    if len s <=? eExp then
      let lpad := eExp - len s in
      (gs "0", if lpad >? 0 then slice_to zeroes lpad ++ s else s)
    else
      let n := len s - eExp in
      (slice_to s n, slice_from s n)
  in
  let x1 := if len x >? oprec then slice_to x oprec else x in
  m ++ gs "." ++ x1.

Definition String (p : Currency) : gostring := stringify (Int p) eExp.

Definition StringFixed (p : Currency) (oprec : Z) : gostring :=
  let oprec1 := if (oprec >? eExp) || (oprec <=? 0) then eExp else oprec in
  stringify (Int p) oprec1.


Definition Currency_Div (p x : Currency) : outcome Currency :=
  match Int_Quo (Int p) (Int x) with
  | Ret z => Ret (mkCurrency z)
  | Panic e => Panic e
  end.

Definition Currency_DivMod (p x : Currency) : outcome (Currency * Currency) :=
  match Int_DivMod (Int p) (Int x) with
  | Ret (z, r) => Ret (mkCurrency z, mkCurrency r)
  | Panic e => Panic e
  end.

Definition IsZero (p : Currency) : bool := 0 =? Int_Cmp (Int p) zero.
Definition Currency_Eq (p x : Currency) : bool := 0 =? Int_Cmp (Int p) (Int x).


Definition Div (a b : Currency) : outcome Currency :=
  match Int_Quo (Int a) (Int b) with
  | Ret z => Ret (mkCurrency z)
  | Panic e => Panic e
  end.

Definition DivMod (a b : Currency) : outcome (Currency * Currency) :=
  match Int_DivMod (Int a) (Int b) with
  | Ret (z, r) => Ret (mkCurrency z, mkCurrency r)
  | Panic e => Panic e
  end.

Definition Inv (a : Currency) : outcome Currency :=
  match Int_Quo iBigMult (Int a) with
  | Ret z => Ret (mkCurrency z)
  | Panic e => Panic e
  end.

Definition Eq (a b : Currency) : bool := 0 =? Int_Cmp (Int a) (Int b).
Definition Cmp (a b : Currency) : Z := Int_Cmp (Int a) (Int b).

Definition MarshalJSON (p : Currency) : result gostring := Ok (String p).

(** [UnmarshalJSON] parses into the receiver, whatever it holds. *)
Definition UnmarshalJSON (p : Currency) (txt : gostring) : result Currency :=
  match parse (Int p) txt with
  | Ok u => Ok (mkCurrency u)
  | Err e => Err e
  end.

(** ** The test table of currency_test.go *)

Definition fmt_case (i o : string) (oprec : Z) : bool :=
  match NewFromString (gs i) with
  | Ok c => if list_eq_dec ascii_dec (StringFixed c oprec) (gs o) then true else false
  | Err _ => false
  end.

(** ** Notions used to state the properties *)

(** A string made of decimal digits only. *)
Definition all_digits (l : gostring) : Prop := forallb is_digit l = true.

(** The number of ['.'] characters of a string. *)
Definition count_dots (s : gostring) : nat := length (filter is_dot s).

(** What a fraction field contributes, in atto units: its first 18
    characters, read as a number and left-aligned in the 18-digit slot. *)
Definition frac_units (fp : gostring) : Z :=
  let ft := firstn 18 fp in dval ft * 10 ^ (18 - len ft).

(** A signed decimal integer literal and the number it denotes: one or
    more digits, with an optional ['+'] or ['-'] in front. *)
Inductive signed_literal : gostring -> Z -> Prop :=
| lit_plain (ds : gostring) :
    0 < len ds -> all_digits ds -> signed_literal ds (dval ds)
| lit_plus (ds : gostring) :
    0 < len ds -> all_digits ds -> signed_literal ("+"%char :: ds) (dval ds)
| lit_minus (ds : gostring) :
    0 < len ds -> all_digits ds -> signed_literal ("-"%char :: ds) (- dval ds).

(** An unsigned decimal integer literal: one or more digits. *)
Definition unsigned_literal (l : gostring) : Prop := 0 < len l /\ all_digits l.

(** What the integer part of an input denotes once its leading zeros are
    stripped: zero when nothing is left, the literal's number otherwise. *)
Definition int_part_denotes (pre : gostring) (p : Z) : Prop :=
  (pre = [] /\ p = 0) \/ signed_literal pre p.

(** The integer segment of an input after [zstripPre], and its fraction
    segment after [zstripPost], the cut to 18 characters and [zstripPre]. *)
Definition int_segment (s : gostring) : gostring :=
  zstripPre (nth 0 (Split s) []).

Definition frac_segment (s : gostring) : gostring :=
  zstripPre (firstn 18 (zstripPost (nth 1 (Split s) []))).

Definition is_signed_literal (l : gostring) : Prop :=
  exists p, signed_literal l p.

(** ** The tests of currency_test.go *)

Example Test_fmt :
  fmt_case "123456.987654321" "123456.987654321000" 12 = true /\
  fmt_case "123456.987654321" "123456.98765" 5 = true /\
  fmt_case "123456.987654321" "123456.987654" 6 = true /\
  fmt_case "123.00456000000" "123.00456" 5 = true /\
  fmt_case "123.00456000000" "123.004560" 6 = true /\
  fmt_case "000.00456000000" "0.004" 3 = true /\
  fmt_case "000.00456000000" "0.00456" 5 = true /\
  fmt_case "123.00000" "123.0" 1 = true /\
  fmt_case "123.00000" "123.00" 2 = true /\
  fmt_case "000.0000" "0.0" 1 = true.
Proof. vm_compute. repeat split. Qed.

Example Test_json :
  match NewFromString (gs "123.0005430123") with
  | Ok ii =>
      match MarshalJSON ii with
      | Ok m =>
          match UnmarshalJSON New m with
          | Ok xx => Currency_Eq ii xx = true
          | Err _ => False
          end
      | Err _ => False
      end
  | Err _ => False
  end.
Proof. vm_compute. reflexivity. Qed.

(** ** Decimal digits *)

Section Digits.

Lemma is_digit_cases (c : ascii) :
  is_digit c = true ->
  In c (gs "0123456789").
Proof.
  unfold is_digit. intros H.
  apply andb_prop in H. destruct H as [H1 H2].
  apply N.leb_le in H1. apply N.leb_le in H2.
  rewrite <- (ascii_N_embedding c).
  remember (N_of_ascii c) as n eqn:E. clear E.
  assert (K : (n = 48 \/ n = 49 \/ n = 50 \/ n = 51 \/ n = 52 \/ n = 53 \/
               n = 54 \/ n = 55 \/ n = 56 \/ n = 57)%N) by lia.
  simpl. repeat (destruct K as [K | K]; [subst n; tauto |]). subst n; tauto.
Qed.

Lemma digit_val_range (c : ascii) :
  is_digit c = true -> 0 <= digit_val c <= 9.
Proof.
  unfold is_digit, digit_val. intros H.
  apply andb_prop in H. destruct H as [H1 H2].
  apply N.leb_le in H1. apply N.leb_le in H2. lia.
Qed.

Lemma small_digit_cases (d : Z) :
  0 <= d <= 9 ->
  d = 0 \/ d = 1 \/ d = 2 \/ d = 3 \/ d = 4 \/ d = 5 \/ d = 6 \/ d = 7 \/
  d = 8 \/ d = 9.
Proof. lia. Qed.

Ltac each_digit H :=
  apply small_digit_cases in H;
  repeat (destruct H as [H | H]; [subst; try reflexivity |]);
  subst; try reflexivity.

Lemma digit_char_is_digit (d : Z) :
  0 <= d <= 9 -> is_digit (digit_char d) = true.
Proof. intros H. each_digit H. Qed.

Lemma digit_val_char (d : Z) :
  0 <= d <= 9 -> digit_val (digit_char d) = d.
Proof. intros H. each_digit H. Qed.

Lemma digit_char_nonzero (d : Z) :
  1 <= d <= 9 -> is_zero_char (digit_char d) = false.
Proof.
  intros H. assert (K : 0 <= d <= 9) by lia.
  each_digit K; lia.
Qed.

Lemma zero_char_val (c : ascii) :
  is_zero_char c = true -> digit_val c = 0.
Proof.
  unfold is_zero_char. intros H. apply Ascii.eqb_eq in H. now subst.
Qed.

Lemma zero_char_is_digit (c : ascii) :
  is_zero_char c = true -> is_digit c = true.
Proof.
  unfold is_zero_char. intros H. apply Ascii.eqb_eq in H. now subst.
Qed.

Lemma digit_not_dot (c : ascii) : is_digit c = true -> is_dot c = false.
Proof.
  intros H. apply is_digit_cases in H. simpl in H.
  repeat (destruct H as [H | H]; [subst; reflexivity |]). contradiction.
Qed.

Lemma digit_not_sign (c : ascii) :
  is_digit c = true ->
  Ascii.eqb c "-"%char = false /\ Ascii.eqb c "+"%char = false.
Proof.
  intros H. apply is_digit_cases in H. simpl in H.
  repeat (destruct H as [H | H]; [subst; split; reflexivity |]). contradiction.
Qed.

Lemma len_nonneg (l : gostring) : 0 <= len l.
Proof. unfold len. lia. Qed.

Lemma len_app (a b : gostring) : len (a ++ b) = len a + len b.
Proof. unfold len. rewrite length_app. lia. Qed.

Lemma len_cons (c : ascii) (l : gostring) : len (c :: l) = len l + 1.
Proof. unfold len. simpl length. lia. Qed.

Lemma len_nil_iff (l : gostring) : len l = 0 <-> l = [].
Proof.
  unfold len. destruct l; simpl; split; intros H; try reflexivity;
    try discriminate; lia.
Qed.

Lemma dval_from (l : gostring) (a : Z) :
  fold_left (fun acc c => acc * 10 + digit_val c) l a = a * 10 ^ len l + dval l.
Proof.
  unfold dval. revert a. induction l as [| c l IH]; intros a.
  - simpl. change (len []) with 0. lia.
  - cbn [fold_left]. rewrite (IH (a * 10 + digit_val c)).
    rewrite (IH (0 * 10 + digit_val c)). rewrite len_cons.
    rewrite Z.pow_add_r by (pose proof (len_nonneg l); lia). lia.
Qed.

Lemma dval_nil : dval [] = 0.
Proof. reflexivity. Qed.

Lemma dval_cons (c : ascii) (l : gostring) :
  dval (c :: l) = digit_val c * 10 ^ len l + dval l.
Proof.
  unfold dval at 1. cbn [fold_left]. rewrite dval_from. lia.
Qed.

Lemma dval_app (a b : gostring) :
  dval (a ++ b) = dval a * 10 ^ len b + dval b.
Proof.
  unfold dval at 1. rewrite fold_left_app.
  fold (dval a). apply dval_from.
Qed.

Lemma all_digits_app (a b : gostring) :
  all_digits (a ++ b) <-> all_digits a /\ all_digits b.
Proof.
  unfold all_digits. rewrite forallb_app. apply andb_true_iff.
Qed.

Lemma all_digits_cons (c : ascii) (l : gostring) :
  all_digits (c :: l) <-> is_digit c = true /\ all_digits l.
Proof. unfold all_digits. simpl. apply andb_true_iff. Qed.

Lemma dval_bounds (l : gostring) :
  all_digits l -> 0 <= dval l < 10 ^ len l.
Proof.
  induction l as [| c l IH]; intros H.
  - rewrite dval_nil. change (len []) with 0. lia.
  - apply all_digits_cons in H. destruct H as [Hc Hl].
    specialize (IH Hl). apply digit_val_range in Hc.
    rewrite dval_cons, len_cons.
    rewrite Z.pow_add_r by (pose proof (len_nonneg l); lia). nia.
Qed.

End Digits.

(** ** The package constants *)

Section Constants.

Lemma iBigMult_value : iBigMult = 10 ^ 18.
Proof. reflexivity. Qed.

Lemma zeroes_value : zeroes = repeat "0"%char 18.
Proof. reflexivity. Qed.

(** [pow64] overflows [int64] from the exponent 19 on ([a *= a] already
    wraps one round earlier, after its last use); [parse] only calls it
    with exponents in [1..18]. *)
Lemma pow64_ten (e : Z) : 0 < e <= 18 -> pow64 10 e = 10 ^ e.
Proof.
  intros H.
  assert (K : e = 1 \/ e = 2 \/ e = 3 \/ e = 4 \/ e = 5 \/ e = 6 \/ e = 7 \/
              e = 8 \/ e = 9 \/ e = 10 \/ e = 11 \/ e = 12 \/ e = 13 \/
              e = 14 \/ e = 15 \/ e = 16 \/ e = 17 \/ e = 18) by lia.
  repeat (destruct K as [K | K]; [subst e; vm_compute; reflexivity |]).
  subst e. vm_compute. reflexivity.
Qed.

End Constants.

(** ** Stripping zeros *)

Section Strip.

Lemma zstripPre_dval (l : gostring) : dval (zstripPre l) = dval l.
Proof.
  induction l as [| c l IH]; simpl; [reflexivity |].
  destruct (is_zero_char c) eqn:E; [| reflexivity].
  rewrite IH, dval_cons, (zero_char_val c E). lia.
Qed.

Lemma zstripPre_digits (l : gostring) :
  all_digits l -> all_digits (zstripPre l).
Proof.
  induction l as [| c l IH]; simpl; intros H; [exact H |].
  destruct (is_zero_char c); [| exact H].
  apply all_digits_cons in H. tauto.
Qed.

Lemma zstripPre_head (l : gostring) :
  zstripPre l = [] \/
  exists c r, zstripPre l = c :: r /\ is_zero_char c = false.
Proof.
  induction l as [| c l IH]; simpl; [now left |].
  destruct (is_zero_char c) eqn:E; [exact IH |].
  right. exists c, l. now split.
Qed.

Lemma zstripPre_keep (c : ascii) (r : gostring) :
  is_zero_char c = false -> zstripPre (c :: r) = c :: r.
Proof. intros H. simpl. now rewrite H. Qed.

Lemma zstripPre_zeros (k : nat) (l : gostring) :
  zstripPre (repeat "0"%char k ++ l) = zstripPre l.
Proof. induction k as [| k IH]; simpl; [reflexivity | exact IH]. Qed.

Lemma zstripPre_shorter (l : gostring) : len (zstripPre l) <= len l.
Proof.
  induction l as [| c l IH]; simpl; [lia |].
  destruct (is_zero_char c); rewrite ?len_cons; lia.
Qed.

Lemma skipn_nth (l : gostring) (i : nat) (d : ascii) :
  (i < length l)%nat -> skipn i l = nth i l d :: skipn (S i) l.
Proof.
  revert i. induction l as [| c l IH]; intros i H; simpl in H; [lia |].
  destruct i as [| i]; [reflexivity |].
  simpl. apply IH. lia.
Qed.

Lemma zstripPost_loop_spec (s : gostring) (j : nat) :
  (j <= length s)%nat ->
  skipn j s = repeat "0"%char (length s - j) ->
  exists k, s = zstripPost_loop s j ++ repeat "0"%char k.
Proof.
  induction j as [| i IH]; intros Hj Hz.
  - exists (length s). simpl. rewrite Nat.sub_0_r in Hz. exact Hz.
  - simpl. destruct (is_zero_char (nth i s "0"%char)) eqn:E.
    + apply IH; [lia |].
      rewrite (skipn_nth s i "0"%char) by lia. rewrite Hz.
      apply Ascii.eqb_eq in E. rewrite E.
      replace (length s - i)%nat with (S (length s - S i)) by lia.
      reflexivity.
    + exists (length s - S i)%nat. rewrite <- Hz.
      symmetry. apply (firstn_skipn (S i) s).
Qed.

(** [zstripPost] removes a run of trailing zeros. *)
Lemma zstripPost_spec (s : gostring) :
  exists k, s = zstripPost s ++ repeat "0"%char k.
Proof.
  apply zstripPost_loop_spec; [lia |].
  rewrite skipn_all, Nat.sub_diag. reflexivity.
Qed.

Lemma all_digits_zeros (k : nat) : all_digits (repeat "0"%char k).
Proof. induction k; [reflexivity | exact IHk]. Qed.

Lemma dval_zeros (k : nat) : dval (repeat "0"%char k) = 0.
Proof.
  induction k as [| k IH]; [reflexivity |].
  simpl repeat. rewrite dval_cons, IH. reflexivity.
Qed.

Lemma len_repeat (c : ascii) (k : nat) : len (repeat c k) = Z.of_nat k.
Proof. unfold len. now rewrite repeat_length. Qed.

Lemma dval_app_zeros (a : gostring) (k : nat) :
  dval (a ++ repeat "0"%char k) = dval a * 10 ^ Z.of_nat k.
Proof. rewrite dval_app, dval_zeros, len_repeat. lia. Qed.

End Strip.

(** ** The math/big primitives, characterised *)

Section BigFacts.

Lemma utoa_dval (fuel : nat) :
  forall n acc, 0 <= n < 2 ^ Z.of_nat fuel ->
  dval (utoa fuel n acc) = n * 10 ^ len acc + dval acc.
Proof.
  induction fuel as [| k IH]; intros n acc Hn.
  - simpl in *. assert (n = 0) by lia. subst n. lia.
  - cbn [utoa].
    pose proof (Z.div_mod n 10 ltac:(lia)) as Hdm.
    pose proof (Z.mod_pos_bound n 10 ltac:(lia)) as Hm.
    destruct (n / 10 =? 0) eqn:E.
    + apply Z.eqb_eq in E.
      rewrite dval_cons, digit_val_char by lia. nia.
    + apply Z.eqb_neq in E.
      rewrite IH.
      * rewrite dval_cons, digit_val_char by lia. rewrite len_cons.
        rewrite Z.pow_add_r by (pose proof (len_nonneg acc); lia). nia.
      * split; [apply Z.div_pos; lia |].
        apply Z.div_lt_upper_bound; [lia |].
        rewrite Nat2Z.inj_succ, Z.pow_succ_r in Hn by lia. lia.
Qed.

Lemma utoa_digits (fuel : nat) :
  forall n acc, 0 <= n -> all_digits acc -> all_digits (utoa fuel n acc).
Proof.
  induction fuel as [| k IH]; intros n acc Hn Ha; [exact Ha |].
  cbn [utoa].
  pose proof (Z.mod_pos_bound n 10 ltac:(lia)) as Hm.
  assert (Hd : all_digits (digit_char (n mod 10) :: acc)).
  { apply all_digits_cons. split; [apply digit_char_is_digit; lia | exact Ha]. }
  destruct (n / 10 =? 0); [exact Hd |].
  apply IH; [apply Z.div_pos; lia | exact Hd].
Qed.

Lemma utoa_head (fuel : nat) :
  forall n acc, 0 < n < 2 ^ Z.of_nat fuel ->
  exists c r, utoa fuel n acc = c :: r /\ is_zero_char c = false.
Proof.
  induction fuel as [| k IH]; intros n acc Hn.
  - simpl in Hn. lia.
  - cbn [utoa].
    pose proof (Z.div_mod n 10 ltac:(lia)) as Hdm.
    pose proof (Z.mod_pos_bound n 10 ltac:(lia)) as Hm.
    destruct (n / 10 =? 0) eqn:E.
    + apply Z.eqb_eq in E. eexists; eexists; split; [reflexivity |].
      apply digit_char_nonzero. lia.
    + apply Z.eqb_neq in E. apply IH.
      assert (0 <= n / 10) by (apply Z.div_pos; lia).
      split; [lia |].
      apply Z.div_lt_upper_bound; [lia |].
      rewrite Nat2Z.inj_succ, Z.pow_succ_r in Hn by lia. lia.
Qed.

Lemma utoa_len_ge (fuel : nat) :
  forall n acc, len acc <= len (utoa fuel n acc).
Proof.
  induction fuel as [| k IH]; intros n acc; cbn [utoa]; [lia |].
  destruct (n / 10 =? 0).
  - rewrite len_cons. lia.
  - specialize (IH (n / 10) (digit_char (n mod 10) :: acc)).
    rewrite len_cons in IH. lia.
Qed.

Lemma utoa_fuel_enough (n : Z) : 0 <= n -> n < 2 ^ Z.of_nat (utoa_fuel n).
Proof.
  intros Hn. unfold utoa_fuel.
  rewrite Nat2Z.inj_succ, Z2Nat.id by apply Z.log2_nonneg.
  destruct (Z.eq_dec n 0) as [-> | Hnz]; [reflexivity |].
  apply Z.log2_spec. lia.
Qed.

(** The text of a non-negative number: digits, denoting it. *)
Lemma Int_String_nonneg (x : Z) :
  0 <= x ->
  all_digits (Int_String x) /\ dval (Int_String x) = x /\ 0 < len (Int_String x).
Proof.
  intros Hx. unfold Int_String.
  destruct (x <? 0) eqn:E; [apply Z.ltb_lt in E; lia |].
  pose proof (utoa_fuel_enough x Hx) as Hf.
  split; [apply utoa_digits; [exact Hx | reflexivity] |].
  split.
  - rewrite utoa_dval by lia. rewrite dval_nil. change (len []) with 0. lia.
  - unfold utoa_fuel. cbn [utoa].
    destruct (x / 10 =? 0).
    + rewrite len_cons. change (len []) with 0. lia.
    + pose proof (utoa_len_ge (Z.to_nat (Z.log2 x)) (x / 10)
                    [digit_char (x mod 10)]) as H.
      rewrite len_cons in H. change (len []) with 0 in H. lia.
Qed.

End BigFacts.

Section BigFacts2.

Lemma Int_String_head (x : Z) :
  0 < x -> exists c r, Int_String x = c :: r /\ is_zero_char c = false.
Proof.
  intros Hx. unfold Int_String.
  destruct (x <? 0) eqn:E; [apply Z.ltb_lt in E; lia |].
  apply utoa_head. pose proof (utoa_fuel_enough x). lia.
Qed.

Lemma Int_String_neg (x : Z) :
  x < 0 -> Int_String x = "-"%char :: Int_String (- x).
Proof.
  intros Hx. unfold Int_String.
  destruct (x <? 0) eqn:E; [| apply Z.ltb_ge in E; lia].
  destruct (- x <? 0) eqn:E'; [apply Z.ltb_lt in E'; lia | reflexivity].
Qed.

Lemma SetString_digits (l : gostring) :
  all_digits l -> 0 < len l -> SetString l = Some (dval l).
Proof.
  intros Hd Hl. destruct l as [| c r]; [discriminate Hl |].
  pose proof Hd as Hd'. apply all_digits_cons in Hd'. destruct Hd' as [Hc _].
  destruct (digit_not_sign c Hc) as [Hm Hp].
  unfold SetString, scanSign. rewrite Hm, Hp.
  unfold all_digits in Hd. now rewrite Hd.
Qed.

Lemma SetString_minus (l : gostring) :
  all_digits l -> 0 < len l ->
  SetString ("-"%char :: l) = Some (- dval l).
Proof.
  intros Hd Hl. destruct l as [| c r]; [discriminate Hl |].
  unfold SetString, scanSign. cbn [Ascii.eqb Bool.eqb].
  unfold all_digits in Hd. now rewrite Hd.
Qed.

End BigFacts2.

(** ** Splitting on dots *)

Section SplitFacts.

Lemma count_dots_cons (c : ascii) (s : gostring) :
  count_dots (c :: s) = if is_dot c then S (count_dots s) else count_dots s.
Proof. unfold count_dots. simpl. now destruct (is_dot c). Qed.

Lemma count_dots_app (a b : gostring) :
  count_dots (a ++ b) = (count_dots a + count_dots b)%nat.
Proof. unfold count_dots. now rewrite filter_app, length_app. Qed.

Lemma Split_nonempty (s : gostring) : Split s <> [].
Proof.
  induction s as [| c s IH]; simpl; [discriminate |].
  destruct (is_dot c); [discriminate |].
  destruct (Split s); [contradiction | discriminate].
Qed.

(** One field more than there are dots. *)
Lemma Split_length (s : gostring) : length (Split s) = S (count_dots s).
Proof.
  induction s as [| c s IH]; [reflexivity |].
  rewrite count_dots_cons. simpl.
  destruct (is_dot c); simpl; [now rewrite IH |].
  destruct (Split s) eqn:E; [now apply Split_nonempty in E | exact IH].
Qed.

Lemma Split_no_dot (s : gostring) : count_dots s = 0%nat -> Split s = [s].
Proof.
  induction s as [| c s IH]; [reflexivity |].
  rewrite count_dots_cons. simpl.
  destruct (is_dot c); [discriminate |].
  intros H. now rewrite (IH H).
Qed.

Lemma Split_at_dot (a b : gostring) :
  count_dots a = 0%nat -> Split (a ++ "."%char :: b) = a :: Split b.
Proof.
  induction a as [| c a IH]; [reflexivity |].
  rewrite count_dots_cons. simpl.
  destruct (is_dot c); [discriminate |].
  intros H. now rewrite (IH H).
Qed.

Lemma Split_two (a b : gostring) :
  count_dots a = 0%nat -> count_dots b = 0%nat ->
  Split (a ++ "."%char :: b) = [a; b].
Proof.
  intros Ha Hb. now rewrite Split_at_dot, (Split_no_dot b Hb).
Qed.

Lemma digits_no_dot (l : gostring) : all_digits l -> count_dots l = 0%nat.
Proof.
  induction l as [| c l IH]; [reflexivity |].
  intros H. apply all_digits_cons in H. destruct H as [Hc Hl].
  rewrite count_dots_cons, (digit_not_dot c Hc). now apply IH.
Qed.

(** The fields, joined by dots, give the string back. *)
Lemma Split_one_inv (s v : gostring) : Split s = [v] -> v = s.
Proof.
  revert v. induction s as [| c s IH]; intros v; simpl.
  - now intros [= <-].
  - destruct (is_dot c).
    + intros [= <- E]. now apply Split_nonempty in E.
    + destruct (Split s) as [| h t] eqn:E; [now apply Split_nonempty in E |].
      intros [= <- ->]. now rewrite (IH h eq_refl).
Qed.

Lemma Split_two_inv (s a b : gostring) :
  Split s = [a; b] -> s = a ++ "."%char :: b.
Proof.
  revert a. induction s as [| c s IH]; intros a; simpl; [discriminate |].
  destruct (is_dot c) eqn:D.
  - intros [= <- E]. apply Ascii.eqb_eq in D. subst c.
    now rewrite (Split_one_inv s b E).
  - destruct (Split s) as [| h t] eqn:E; [now apply Split_nonempty in E |].
    intros [= <- ->]. now rewrite (IH h eq_refl).
Qed.

End SplitFacts.

(** ** The fraction field *)

Section Fraction.

Lemma truncate_firstn (post : gostring) :
  (if len post >? eExp then slice_to post eExp else post) = firstn 18 post.
Proof.
  unfold len, eExp, slice_to.
  destruct (Z.of_nat (length post) >? 18) eqn:E; [reflexivity |].
  symmetry. apply firstn_all2.
  rewrite Z.gtb_ltb in E. apply Z.ltb_ge in E. lia.
Qed.

Lemma len_firstn_le (k : nat) (l : gostring) : len (firstn k l) <= Z.of_nat k.
Proof. unfold len. pose proof (firstn_le_length k l). lia. Qed.

Lemma all_digits_firstn (k : nat) (l : gostring) :
  all_digits l -> all_digits (firstn k l).
Proof.
  intros H. rewrite <- (firstn_skipn k l) in H.
  apply all_digits_app in H. tauto.
Qed.

Lemma all_digits_skipn (k : nat) (l : gostring) :
  all_digits l -> all_digits (skipn k l).
Proof.
  intros H. rewrite <- (firstn_skipn k l) in H.
  apply all_digits_app in H. tauto.
Qed.

Lemma firstn_zeros (j k : nat) :
  firstn j (repeat "0"%char k) = repeat "0"%char (Nat.min j k).
Proof.
  revert k. induction j as [| j IH]; intros k; [reflexivity |].
  destruct k as [| k]; [reflexivity |]. simpl. now rewrite IH.
Qed.

(** Trailing zeros of the fraction field do not change what it contributes. *)
Lemma frac_units_app_zeros (a : gostring) (k : nat) :
  frac_units (a ++ repeat "0"%char k) = frac_units a.
Proof.
  unfold frac_units. cbv zeta. rewrite firstn_app, firstn_zeros.
  destruct (Nat.le_gt_cases 18 (length a)) as [Hge | Hlt].
  - replace (18 - length a)%nat with 0%nat by lia.
    rewrite Nat.min_0_l. simpl repeat. now rewrite app_nil_r.
  - rewrite (firstn_all2 (n := 18) a) by lia.
    rewrite dval_app_zeros, len_app, len_repeat.
    set (m := Nat.min (18 - length a) k).
    assert (Hm : Z.of_nat m <= 18 - len a) by (unfold len, m; lia).
    replace (18 - len a) with (Z.of_nat m + (18 - (len a + Z.of_nat m))) by lia.
    rewrite Z.pow_add_r by lia. lia.
Qed.

Lemma frac_units_zstripPost (fp : gostring) :
  frac_units (zstripPost fp) = frac_units fp.
Proof.
  destruct (zstripPost_spec fp) as [k Hk].
  rewrite Hk at 2. symmetry. apply frac_units_app_zeros.
Qed.

Lemma zstripPost_digits (fp : gostring) :
  all_digits (firstn 18 fp) -> all_digits (firstn 18 (zstripPost fp)).
Proof.
  intros H. destruct (zstripPost_spec fp) as [k Hk].
  rewrite Hk, firstn_app in H. apply all_digits_app in H. tauto.
Qed.

Lemma frac_units_nil : frac_units [] = 0.
Proof. reflexivity. Qed.

Lemma frac_units_bounds (fp : gostring) :
  all_digits (firstn 18 fp) -> 0 <= frac_units fp < 10 ^ 18.
Proof.
  intros H. unfold frac_units. cbv zeta.
  pose proof (dval_bounds _ H) as Hb.
  pose proof (len_firstn_le 18 fp) as Hl.
  pose proof (len_nonneg (firstn 18 fp)) as Hl0.
  set (ft := firstn 18 fp) in *.
  assert (E : 10 ^ 18 = 10 ^ len ft * 10 ^ (18 - len ft)).
  { rewrite <- Z.pow_add_r by lia. f_equal. lia. }
  rewrite E.
  assert (0 < 10 ^ (18 - len ft)) by (apply Z.pow_pos_nonneg; lia).
  nia.
Qed.

End Fraction.

(** ** [SetString] and literals *)

Section Literals.

Lemma SetString_plus (l : gostring) :
  all_digits l -> 0 < len l ->
  SetString ("+"%char :: l) = Some (dval l).
Proof.
  intros Hd Hl. destruct l as [| c r]; [discriminate Hl |].
  unfold SetString, scanSign. cbn [Ascii.eqb Bool.eqb].
  unfold all_digits in Hd. now rewrite Hd.
Qed.

Lemma SetString_literal (l : gostring) (p : Z) :
  signed_literal l p -> SetString l = Some p.
Proof.
  intros H. destruct H as [ds Hl Hd | ds Hl Hd | ds Hl Hd].
  - now apply SetString_digits.
  - now apply SetString_plus.
  - now apply SetString_minus.
Qed.

Lemma len_pos_cons (c : ascii) (l : gostring) : 0 < len (c :: l).
Proof. rewrite len_cons. pose proof (len_nonneg l). lia. Qed.

Lemma literal_SetString (l : gostring) (p : Z) :
  SetString l = Some p -> signed_literal l p.
Proof.
  unfold SetString, scanSign. destruct l as [| c r]; [discriminate |].
  destruct (Ascii.eqb c "-"%char) eqn:Em.
  - apply Ascii.eqb_eq in Em. subst c.
    destruct r as [| d r]; [discriminate |].
    destruct (forallb is_digit (d :: r)) eqn:F; [| discriminate].
    intros [= <-]. apply lit_minus; [apply len_pos_cons | exact F].
  - destruct (Ascii.eqb c "+"%char) eqn:Ep.
    + apply Ascii.eqb_eq in Ep. subst c.
      destruct r as [| d r]; [discriminate |].
      destruct (forallb is_digit (d :: r)) eqn:F; [| discriminate].
      intros [= <-]. apply lit_plus; [apply len_pos_cons | exact F].
    + destruct (forallb is_digit (c :: r)) eqn:F; [| discriminate].
      intros [= <-]. apply lit_plain; [apply len_pos_cons | exact F].
Qed.

(** [SetString] succeeds exactly on the signed decimal literals. *)
Lemma SetString_iff (l : gostring) (p : Z) :
  SetString l = Some p <-> signed_literal l p.
Proof. split; [apply literal_SetString | apply SetString_literal]. Qed.

Lemma literal_len_pos (l : gostring) (p : Z) : signed_literal l p -> 0 < len l.
Proof.
  intros H. destruct H as [ds Hl Hd | ds Hl Hd | ds Hl Hd];
    rewrite ?len_cons; lia.
Qed.

(** What the guarded [SetString] on the integer part leaves in the
    receiver when it held [p0]. *)
Lemma int_part_set (pre : gostring) (p : Z) (p0 : Z) :
  signed_literal pre p ->
  (if len pre >? 0 then SetString pre else Some p0) = Some p.
Proof.
  intros H. pose proof (literal_len_pos pre p H) as Hl.
  apply Z.gt_lt_iff, Z.gtb_gt in Hl. rewrite Hl.
  now apply SetString_literal.
Qed.

End Literals.

(** ** What [parse] computes *)

Section ParseFacts.

Lemma frac_set (ft : gostring) :
  all_digits ft ->
  (if len (zstripPre ft) >? 0 then SetString (zstripPre ft) else Some 0)
  = Some (dval ft).
Proof.
  intros Hd. rewrite <- (zstripPre_dval ft).
  pose proof (zstripPre_digits ft Hd) as Hd'.
  pose proof (len_nonneg (zstripPre ft)) as Hl.
  destruct (len (zstripPre ft) >? 0) eqn:E.
  - rewrite Z.gtb_ltb in E. apply Z.ltb_lt in E.
    now apply SetString_digits.
  - rewrite Z.gtb_ltb in E. apply Z.ltb_ge in E.
    assert (Z0 : len (zstripPre ft) = 0) by lia.
    apply len_nil_iff in Z0. now rewrite Z0.
Qed.

Lemma frac_scale (ft : gostring) (f : Z) :
  len ft <= 18 ->
  (if eExp - len ft >? 0 then f * pow64 10 (eExp - len ft) else f)
  = f * 10 ^ (18 - len ft).
Proof.
  intros Hl. pose proof (len_nonneg ft) as Hl0. unfold eExp.
  destruct (18 - len ft >? 0) eqn:E; rewrite Z.gtb_ltb in E.
  - apply Z.ltb_lt in E. rewrite pow64_ten by lia. reflexivity.
  - apply Z.ltb_ge in E. replace (18 - len ft) with 0 by lia.
    rewrite Z.pow_0_r. lia.
Qed.

(** With digits in the first 18 characters of the fraction field,
    [parse_fields] can only fail on the integer part, and otherwise stores integer part and fraction side by
    side. *)
Lemma parse_fields_digits (p : Z) (s pre post : gostring) :
  all_digits (firstn 18 post) ->
  parse_fields p s pre post =
  match (if len pre >? 0 then SetString pre else Some p) with
  | None => Err (Errorf "invalid decimal " s)
  | Some p1 => Ok (p1 * 10 ^ 18 + frac_units post)
  end.
Proof.
  intros Hd. unfold parse_fields.
  destruct (if len pre >? 0 then SetString pre else Some p) as [p1 |];
    [| reflexivity].
  cbv zeta. rewrite truncate_firstn.
  rewrite (frac_set _ Hd).
  rewrite frac_scale by apply (len_firstn_le 18).
  rewrite iBigMult_value. reflexivity.
Qed.

Lemma parse_fields_ok (p0 p : Z) (s pre post : gostring) :
  signed_literal pre p -> all_digits (firstn 18 post) ->
  parse_fields p0 s pre post = Ok (p * 10 ^ 18 + frac_units post).
Proof.
  intros Hp Hd. rewrite (parse_fields_digits p0 s pre post Hd).
  now rewrite (int_part_set pre p p0 Hp).
Qed.

(** With nothing left of the integer part the receiver's prior value
    stays in and is scaled. *)
Lemma parse_fields_empty_pre (p0 : Z) (s post : gostring) :
  all_digits (firstn 18 post) ->
  parse_fields p0 s [] post = Ok (p0 * 10 ^ 18 + frac_units post).
Proof.
  intros Hd. now rewrite (parse_fields_digits p0 s [] post Hd).
Qed.

End ParseFacts.

(** ** What [stringify] renders for a non-negative value *)

Section StringifyFacts.

Lemma unfold_dot (m x : gostring) : m ++ gs "." ++ x = m ++ "."%char :: x.
Proof. reflexivity. Qed.

Lemma len_18_no_cut (x : gostring) :
  len x = 18 -> (if len x >? eExp then slice_to x eExp else x) = x.
Proof. intros H. rewrite H. reflexivity. Qed.

(** At full precision a non-negative value renders as a whole part and
    exactly 18 fraction digits which together denote it; the whole part is
    ["0"] or starts with a non-zero digit. *)
Lemma stringify_nonneg (u : Z) :
  0 <= u ->
  exists m x,
    stringify u eExp = m ++ "."%char :: x /\
    all_digits m /\ all_digits x /\ len x = 18 /\
    dval m * 10 ^ 18 + dval x = u /\
    int_part_denotes (zstripPre m) (dval m).
Proof.
  intros Hu.
  destruct (Int_String_nonneg u Hu) as (Hd & Hv & Hl).
  unfold stringify. remember (Int_String u) as s eqn:Es. cbv zeta.
  destruct (len s <=? eExp) eqn:E; unfold eExp in E.
  - apply Z.leb_le in E.
    set (x := if eExp - len s >? 0 then slice_to zeroes (eExp - len s) ++ s
              else s).
    assert (Hx : x = repeat "0"%char (Z.to_nat (18 - len s)) ++ s).
    { unfold x, eExp. destruct (18 - len s >? 0) eqn:P.
      - unfold slice_to. rewrite zeroes_value, firstn_zeros.
        f_equal. f_equal. lia.
      - rewrite Z.gtb_ltb in P. apply Z.ltb_ge in P.
        replace (18 - len s) with 0 by lia. reflexivity. }
    assert (Hlx : len x = 18).
    { rewrite Hx, len_app, len_repeat. lia. }
    exists (gs "0"), x. rewrite (len_18_no_cut x Hlx), unfold_dot.
    split; [reflexivity |]. split; [reflexivity |].
    split; [rewrite Hx; apply all_digits_app; split;
            [apply all_digits_zeros | exact Hd] |].
    split; [exact Hlx |].
    split; [| left; split; reflexivity].
    rewrite Hx, dval_app, dval_zeros. change (dval (gs "0")) with 0. lia.
  - apply Z.leb_gt in E.
    set (n := len s - eExp).
    assert (Hn : 0 < n) by (unfold n, eExp; lia).
    assert (Hsplit : s = slice_to s n ++ slice_from s n).
    { unfold slice_to, slice_from. symmetry. apply firstn_skipn. }
    assert (Hlm : len (slice_to s n) = n).
    { unfold slice_to, len. rewrite length_firstn.
      unfold n, eExp, len in *. lia. }
    assert (Hlx : len (slice_from s n) = 18).
    { unfold slice_from, len. rewrite length_skipn.
      unfold n, eExp, len in *. lia. }
    exists (slice_to s n), (slice_from s n).
    rewrite (len_18_no_cut _ Hlx), unfold_dot.
    split; [reflexivity |].
    split; [apply all_digits_firstn; exact Hd |].
    split; [apply all_digits_skipn; exact Hd |].
    split; [exact Hlx |].
    split.
    + rewrite <- Hlx, <- dval_app, <- Hsplit. exact Hv.
    + right.
      assert (Hpos : 0 < u).
      { destruct (Z.eq_dec u 0) as [U | U]; [| lia].
        exfalso. rewrite U in Es. rewrite Es in E. vm_compute in E.
        discriminate. }
      destruct (Int_String_head u Hpos) as (c & r & Hs & Hc).
      rewrite <- Es in Hs.
      assert (Hm : slice_to s n = c :: firstn (Z.to_nat n - 1) r).
      { unfold slice_to. rewrite Hs.
        replace (Z.to_nat n) with (S (Z.to_nat n - 1)) at 1 by lia.
        reflexivity. }
      rewrite Hm, (zstripPre_keep c _ Hc). rewrite <- Hm.
      apply lit_plain; [lia | apply all_digits_firstn; exact Hd].
Qed.

End StringifyFacts.

(** ** What [stringify] renders for a negative value *)

Section StringifyNegative.

Lemma nonzero_digit_val (c : ascii) :
  is_digit c = true -> is_zero_char c = false -> 1 <= digit_val c.
Proof.
  intros Hd Hz. apply is_digit_cases in Hd. simpl in Hd.
  repeat (destruct Hd as [Hd | Hd];
          [subst c; try discriminate Hz; vm_compute; discriminate |]).
  contradiction.
Qed.

Lemma Int_String_upper (x : Z) : 0 <= x -> x < 10 ^ len (Int_String x).
Proof.
  intros Hx. destruct (Int_String_nonneg x Hx) as (Hd & Hv & _).
  pose proof (dval_bounds _ Hd). lia.
Qed.

Lemma Int_String_lower (x : Z) : 0 < x -> 10 ^ (len (Int_String x) - 1) <= x.
Proof.
  intros Hx. destruct (Int_String_nonneg x ltac:(lia)) as (Hd & Hv & _).
  destruct (Int_String_head x Hx) as (c & r & Hs & Hc).
  rewrite Hs in Hd, Hv |- *. apply all_digits_cons in Hd. destruct Hd as [Hdc Hdr].
  pose proof (nonzero_digit_val c Hdc Hc) as H1.
  pose proof (dval_bounds r Hdr) as Hb.
  rewrite dval_cons in Hv. rewrite len_cons.
  replace (len r + 1 - 1) with (len r) by lia.
  assert (0 < 10 ^ len r) by (apply Z.pow_pos_nonneg; [lia | apply len_nonneg]).
  nia.
Qed.

(** Below a tenth of a unit in magnitude, the text of a negative value has
    at most 18 characters, sign included: the whole part is ["0"] and the
    sign is inside the fraction digits, behind the padding. *)
Lemma stringify_sign_in_fraction (x : Z) :
  - 10 ^ 17 < x < 0 ->
  exists k,
    stringify x eExp =
    gs "0" ++ "."%char :: repeat "0"%char k ++ "-"%char :: Int_String (- x).
Proof.
  intros Hx. unfold stringify. rewrite (Int_String_neg x) by lia.
  remember (Int_String (- x)) as ds eqn:Eds.
  pose proof (Int_String_lower (- x) ltac:(lia)) as Hlow. rewrite <- Eds in Hlow.
  pose proof (len_nonneg ds) as Hl0.
  assert (Hl : len ds <= 17).
  { destruct (Z_le_gt_dec (len ds) 17) as [L | G]; [exact L | exfalso].
    assert (10 ^ 17 <= 10 ^ (len ds - 1)) by (apply Z.pow_le_mono_r; lia).
    lia. }
  cbv zeta. rewrite len_cons.
  assert (E : (len ds + 1 <=? eExp) = true) by (apply Z.leb_le; unfold eExp; lia).
  rewrite E.
  exists (Z.to_nat (17 - len ds)).
  set (xs := if eExp - (len ds + 1) >? 0
             then slice_to zeroes (eExp - (len ds + 1)) ++ "-"%char :: ds
             else "-"%char :: ds).
  assert (Hxs : xs = repeat "0"%char (Z.to_nat (17 - len ds)) ++ "-"%char :: ds).
  { unfold xs, eExp. destruct (18 - (len ds + 1) >? 0) eqn:P.
    - unfold slice_to. rewrite zeroes_value, firstn_zeros.
      f_equal. f_equal. lia.
    - rewrite Z.gtb_ltb in P. apply Z.ltb_ge in P.
      replace (17 - len ds) with 0 by lia. reflexivity. }
  assert (Hlx : len xs = 18).
  { rewrite Hxs, len_app, len_repeat, len_cons. lia. }
  rewrite (len_18_no_cut xs Hlx), Hxs. reflexivity.
Qed.

(** From a tenth of a unit on, the sign heads the whole part and the
    fraction is 18 digits; the whole part is the bare sign below one unit. *)
Lemma stringify_sign_in_whole (x : Z) :
  x <= - 10 ^ 17 ->
  exists m f,
    stringify x eExp = ("-"%char :: m) ++ "."%char :: f /\
    all_digits m /\ all_digits f /\ len f = 18 /\
    dval m * 10 ^ 18 + dval f = - x.
Proof.
  intros Hx. unfold stringify. rewrite (Int_String_neg x) by lia.
  destruct (Int_String_nonneg (- x) ltac:(lia)) as (Hd & Hv & _).
  pose proof (Int_String_upper (- x) ltac:(lia)) as Hup.
  remember (Int_String (- x)) as ds eqn:Eds.
  pose proof (len_nonneg ds) as Hl0.
  assert (Hl : 18 <= len ds).
  { destruct (Z_le_gt_dec 18 (len ds)) as [L | G]; [exact L | exfalso].
    assert (10 ^ len ds <= 10 ^ 17) by (apply Z.pow_le_mono_r; lia).
    lia. }
  cbv zeta. rewrite len_cons.
  assert (E : (len ds + 1 <=? eExp) = false) by (apply Z.leb_gt; unfold eExp; lia).
  rewrite E.
  set (n := len ds + 1 - eExp).
  assert (Hn : Z.to_nat n = S (Z.to_nat (len ds - 18))) by (unfold n, eExp; lia).
  unfold slice_to, slice_from. rewrite Hn. cbn [firstn skipn].
  set (j := Z.to_nat (len ds - 18)).
  assert (Hlf : len (skipn j ds) = 18).
  { unfold len. rewrite length_skipn. unfold j, len in *. lia. }
  exists (firstn j ds), (skipn j ds).
  fold (slice_to (skipn j ds) eExp).
  rewrite (len_18_no_cut _ Hlf), unfold_dot.
  split; [reflexivity |].
  split; [apply all_digits_firstn; exact Hd |].
  split; [apply all_digits_skipn; exact Hd |].
  split; [exact Hlf |].
  rewrite <- Hlf, <- dval_app, firstn_skipn. exact Hv.
Qed.

End StringifyNegative.

(** ** Parsing what was rendered, rendering what was parsed *)

Section Codec.

Lemma frac_units_full (x : gostring) : len x = 18 -> frac_units x = dval x.
Proof.
  intros H. unfold frac_units. cbv zeta.
  rewrite firstn_all2 by (unfold len in H; lia).
  rewrite H. change (10 ^ (18 - 18)) with 1. lia.
Qed.

Lemma frac_units_short (fp : gostring) :
  len fp <= 18 -> frac_units fp = dval fp * 10 ^ (18 - len fp).
Proof.
  intros H. unfold frac_units. cbv zeta.
  now rewrite firstn_all2 by (unfold len in H; lia).
Qed.

(** Parsing a string with one dot into a receiver holding [p0]. *)
Lemma parse_dotted (p0 p : Z) (ip fp : gostring) :
  count_dots ip = 0%nat -> count_dots fp = 0%nat ->
  all_digits (firstn 18 fp) ->
  int_part_denotes (zstripPre ip) p ->
  parse p0 (ip ++ "."%char :: fp) =
  Ok ((if len (zstripPre ip) >? 0 then p else p0) * 10 ^ 18 + frac_units fp).
Proof.
  intros Hi Hfd Hf Hp. unfold parse.
  rewrite (Split_two ip fp Hi Hfd).
  rewrite <- (frac_units_zstripPost fp).
  pose proof (zstripPost_digits fp Hf) as Hf'.
  destruct Hp as [[Hnil _] | Hlit].
  - rewrite Hnil. now apply parse_fields_empty_pre.
  - pose proof (literal_len_pos _ _ Hlit) as Hl.
    apply Z.gt_lt_iff, Z.gtb_gt in Hl. rewrite Hl.
    now apply parse_fields_ok.
Qed.

(** Parsing a string without a dot. *)
Lemma parse_plain (p0 p : Z) (ip : gostring) :
  count_dots ip = 0%nat ->
  int_part_denotes (zstripPre ip) p ->
  parse p0 ip = Ok ((if len (zstripPre ip) >? 0 then p else p0) * 10 ^ 18).
Proof.
  intros Hi Hp. unfold parse. rewrite (Split_no_dot ip Hi).
  replace ((if len (zstripPre ip) >? 0 then p else p0) * 10 ^ 18)
    with ((if len (zstripPre ip) >? 0 then p else p0) * 10 ^ 18 + frac_units [])
    by (rewrite frac_units_nil; lia).
  destruct Hp as [[Hnil _] | Hlit].
  - rewrite Hnil. now apply parse_fields_empty_pre.
  - pose proof (literal_len_pos _ _ Hlit) as Hl.
    apply Z.gt_lt_iff, Z.gtb_gt in Hl. rewrite Hl.
    now apply parse_fields_ok.
Qed.

(** X9.  For non-negative values, unmarshalling what was marshalled into a
    fresh zero value succeeds and gives the value back. *)
Lemma json_roundtrip_nonneg (v : Currency) :
  0 <= Int v ->
  exists txt w,
    MarshalJSON v = Ok txt /\ UnmarshalJSON New txt = Ok w /\ Eq w v = true.
Proof.
  intros Hv. destruct (stringify_nonneg (Int v) Hv)
    as (m & x & Hs & Hm & Hx & Hlx & Hval & Hden).
  exists (m ++ "."%char :: x), (mkCurrency (Int v)).
  split; [unfold MarshalJSON, String; now rewrite Hs |].
  split.
  - unfold UnmarshalJSON, New. cbn [Int].
    rewrite (parse_dotted 0 (dval m) m x (digits_no_dot m Hm)
               (digits_no_dot x Hx) (all_digits_firstn 18 x Hx) Hden).
    rewrite (frac_units_full x Hlx).
    destruct Hden as [[Hnil Hz] | Hlit].
    + rewrite Hnil. change (len [] >? 0) with false. cbv iota.
      do 2 f_equal. lia.
    + pose proof (literal_len_pos _ _ Hlit) as Hl.
      apply Z.gt_lt_iff, Z.gtb_gt in Hl. rewrite Hl. do 2 f_equal. lia.
  - unfold Eq, Int_Cmp. cbn [Int]. now rewrite Z.compare_refl.
Qed.

Lemma json_roundtrip_nonneg_witness :
  0 <= Int (mkCurrency 123000543012300000000) /\
  exists txt w,
    MarshalJSON (mkCurrency 123000543012300000000) = Ok txt /\
    UnmarshalJSON New txt = Ok w /\
    Eq w (mkCurrency 123000543012300000000) = true.
Proof.
  assert (H : 0 <= Int (mkCurrency 123000543012300000000))
    by (cbn [Int]; lia).
  split; [exact H |].
  exact (json_roundtrip_nonneg (mkCurrency 123000543012300000000) H).
Defined.

End Codec.

(** ** The stored value *)

Section ParseValue.

Lemma fields_of_split (s ip fp : gostring) :
  (Split s = [ip] /\ fp = [] \/ Split s = [ip; fp]) ->
  count_dots ip = 0%nat /\
  (s = ip /\ fp = [] \/ s = ip ++ "."%char :: fp /\ count_dots fp = 0%nat).
Proof.
  intros [[H1 Hf] | H2].
  - pose proof (Split_length s) as L. rewrite H1 in L. simpl in L.
    apply Split_one_inv in H1. subst ip.
    split; [lia | left; now split].
  - pose proof (Split_length s) as L. rewrite H2 in L. simpl in L.
    apply Split_two_inv in H2. subst s.
    rewrite count_dots_app, count_dots_cons in L. cbn [is_dot Ascii.eqb Bool.eqb] in L.
    split; [lia | right; split; [reflexivity | lia]].
Qed.

Lemma denoted_or_zero (pre : gostring) (p : Z) :
  int_part_denotes pre p -> (if len pre >? 0 then p else 0) = p.
Proof.
  intros [[-> ->] | Hlit]; [reflexivity |].
  pose proof (literal_len_pos _ _ Hlit) as Hl.
  apply Z.gt_lt_iff, Z.gtb_gt in Hl. now rewrite Hl.
Qed.

(** The value [parse] stores into a fresh zero receiver, for an input whose
    fraction field has digits in its first 18 characters. *)
Lemma parse_fresh (s ip fp : gostring) (p : Z) :
  (Split s = [ip] /\ fp = [] \/ Split s = [ip; fp]) ->
  int_part_denotes (zstripPre ip) p ->
  all_digits (firstn 18 fp) ->
  parse 0 s = Ok (p * 10 ^ 18 + frac_units fp).
Proof.
  intros Hs Hp Hf.
  destruct (fields_of_split s ip fp Hs) as [Hi [[-> ->] | [-> Hfd]]].
  - rewrite (parse_plain 0 p ip Hi Hp), (denoted_or_zero _ _ Hp).
    rewrite frac_units_nil. f_equal. lia.
  - rewrite (parse_dotted 0 p ip fp Hi Hfd Hf Hp), (denoted_or_zero _ _ Hp).
    reflexivity.
Qed.

Lemma NewFromString_parse (s : gostring) (u : Z) :
  parse 0 s = Ok u -> NewFromString s = Ok (mkCurrency u).
Proof.
  intros H. unfold NewFromString.
  destruct (len s >? 0) eqn:E; [now rewrite H |].
  pose proof (len_nonneg s). rewrite Z.gtb_ltb in E. apply Z.ltb_ge in E.
  assert (Z0 : len s = 0) by lia. apply len_nil_iff in Z0. subst s.
  vm_compute in H. now injection H as <-.
Qed.

End ParseValue.

(** C5.  For a valid input parsed into a fresh zero value, with [p] the
    signed integer the zero-stripped integer part denotes, [ft] the fraction
    field cut to its first 18 characters (digits), [n] the length of [ft]
    before its leading zeros are stripped and [f0] the number the digits of
    [ft] denote, the stored value is [p * 10^18 + f0 * 10^(18-n)]. *)
Theorem parse_units_formula (s ip fp : gostring) (p : Z) :
  (Split s = [ip] /\ fp = [] \/ Split s = [ip; fp]) ->
  int_part_denotes (zstripPre ip) p ->
  all_digits (firstn 18 fp) ->
  let ft := firstn 18 fp in
  let n := len ft in
  let f0 := dval ft in
  parse 0 s = Ok (p * 10 ^ 18 + f0 * 10 ^ (18 - n)) /\
  NewFromString s = Ok (mkCurrency (p * 10 ^ 18 + f0 * 10 ^ (18 - n))).
Proof.
  intros Hs Hp Hf ft n f0.
  pose proof (parse_fresh s ip fp p Hs Hp Hf) as H.
  unfold frac_units in H. cbv zeta in H. fold ft in H. fold n f0 in H.
  split; [exact H | now apply NewFromString_parse].
Qed.

Lemma parse_units_formula_witness :
  let s := gs "-12.0340" in
  (Split s = [gs "-12"] /\ gs "0340" = [] \/ Split s = [gs "-12"; gs "0340"]) /\
  int_part_denotes (zstripPre (gs "-12")) (-12) /\
  all_digits (firstn 18 (gs "0340")) /\
  parse 0 s = Ok (-12 * 10 ^ 18 + 340 * 10 ^ (18 - 4)) /\
  NewFromString s = Ok (mkCurrency (-12 * 10 ^ 18 + 340 * 10 ^ (18 - 4))).
Proof.
  assert (H1 : Split (gs "-12.0340") = [gs "-12"] /\ gs "0340" = [] \/
               Split (gs "-12.0340") = [gs "-12"; gs "0340"])
    by (right; reflexivity).
  assert (H2 : int_part_denotes (zstripPre (gs "-12")) (-12)).
  { right. apply (lit_minus (gs "12")); [reflexivity | reflexivity]. }
  assert (H3 : all_digits (firstn 18 (gs "0340"))) by reflexivity.
  split; [exact H1 |]. split; [exact H2 |]. split; [exact H3 |].
  exact (parse_units_formula (gs "-12.0340") (gs "-12") (gs "0340") (-12)
           H1 H2 H3).
Defined.

(** ** Unsigned decimal strings *)

Section Unsigned.

Lemma digits_denote (ip : gostring) :
  all_digits ip -> int_part_denotes (zstripPre ip) (dval ip).
Proof.
  intros H. pose proof (zstripPre_digits ip H) as Hd.
  rewrite <- (zstripPre_dval ip).
  destruct (zstripPre ip) as [| c r] eqn:E.
  - left. now split.
  - right. apply lit_plain; [apply len_pos_cons | exact Hd].
Qed.

Lemma StringFixed_full (c : Currency) : StringFixed c 18 = stringify (Int c) eExp.
Proof. reflexivity. Qed.

(** X8.  For an unsigned decimal string with at most 18 fraction digits,
    [NewFromString] succeeds and the rendering at precision 18 of what was
    parsed has a whole part denoting the integer part and 18 fraction digits
    denoting the fraction. *)
Lemma unsigned_parse_render (s ip fp : gostring) :
  (Split s = [ip] /\ fp = [] \/ Split s = [ip; fp]) ->
  all_digits ip -> all_digits fp -> len fp <= 18 ->
  exists c m x,
    NewFromString s = Ok c /\
    StringFixed c 18 = m ++ "."%char :: x /\
    all_digits m /\ all_digits x /\ len x = 18 /\
    dval m = dval ip /\ dval x = dval fp * 10 ^ (18 - len fp).
Proof.
  intros Hs Hi Hf Hl.
  pose proof (all_digits_firstn 18 fp Hf) as Hf18.
  pose proof (parse_fresh s ip fp (dval ip) Hs (digits_denote ip Hi) Hf18) as Hp.
  pose proof (frac_units_bounds fp Hf18) as Hb.
  rewrite <- (frac_units_short fp Hl).
  pose proof (dval_bounds ip Hi) as [Hi0 _].
  set (u := dval ip * 10 ^ 18 + frac_units fp) in *.
  assert (Hu : 0 <= u) by (unfold u; lia).
  destruct (stringify_nonneg u Hu) as (m & x & Hst & Hm & Hx & Hlx & Hv & _).
  exists (mkCurrency u), m, x.
  split; [now apply NewFromString_parse |].
  split; [rewrite StringFixed_full; exact Hst |].
  split; [exact Hm |]. split; [exact Hx |]. split; [exact Hlx |].
  pose proof (dval_bounds x Hx) as Hbx. rewrite Hlx in Hbx.
  unfold u in Hv. lia.
Qed.

Lemma unsigned_parse_render_witness :
  (Split (gs "0123.00456") = [gs "0123"] /\ gs "00456" = [] \/
   Split (gs "0123.00456") = [gs "0123"; gs "00456"]) /\
  all_digits (gs "0123") /\ all_digits (gs "00456") /\
  len (gs "00456") <= 18 /\
  exists c m x,
    NewFromString (gs "0123.00456") = Ok c /\
    StringFixed c 18 = m ++ "."%char :: x /\
    all_digits m /\ all_digits x /\ len x = 18 /\
    dval m = dval (gs "0123") /\
    dval x = dval (gs "00456") * 10 ^ (18 - len (gs "00456")).
Proof.
  assert (H1 : Split (gs "0123.00456") = [gs "0123"] /\ gs "00456" = [] \/
               Split (gs "0123.00456") = [gs "0123"; gs "00456"])
    by (right; reflexivity).
  assert (H2 : all_digits (gs "0123")) by reflexivity.
  assert (H3 : all_digits (gs "00456")) by reflexivity.
  assert (H4 : len (gs "00456") <= 18) by (vm_compute; discriminate).
  split; [exact H1 |]. split; [exact H2 |]. split; [exact H3 |].
  split; [exact H4 |].
  exact (unsigned_parse_render (gs "0123.00456") (gs "0123") (gs "00456")
           H1 H2 H3 H4).
Defined.

End Unsigned.

(** ** Negative values and signed inputs *)

(** C1.  Marshalling a value and unmarshalling the bytes into a fresh zero
    value is meant to give the value back.  It does not for negative values:
    -1.5 is marshalled as [-1.500000000000000000], which unmarshals to
    -0.5, and -0.5 is marshalled as [-.500000000000000000], which
    [UnmarshalJSON] rejects. *)
Theorem marshal_unmarshal_negative :
  MarshalJSON (mkCurrency (-1500000000000000000))
    = Ok (gs "-1.500000000000000000") /\
  UnmarshalJSON New (gs "-1.500000000000000000")
    = Ok (mkCurrency (-500000000000000000)) /\
  Eq (mkCurrency (-500000000000000000)) (mkCurrency (-1500000000000000000))
    = false /\
  MarshalJSON (mkCurrency (-500000000000000000))
    = Ok (gs "-.500000000000000000") /\
  UnmarshalJSON New (gs "-.500000000000000000")
    = Err (gs "invalid decimal -.500000000000000000").
Proof. repeat split; vm_compute; reflexivity. Qed.

(** C2.  Parsing a decimal string with at most 18 fraction digits and
    rendering at precision 18 is meant to reproduce the number the string
    denotes.  For the signed string [-1.5] the parsed value is
    -0.5 (in atto units) and it renders as [-.500000000000000000]. *)
Theorem parse_render_signed :
  NewFromString (gs "-1.5") = Ok (mkCurrency (-500000000000000000)) /\
  StringFixed (mkCurrency (-500000000000000000)) 18
    = gs "-.500000000000000000" /\
  -500000000000000000 <> -15 * 10 ^ 17.
Proof. repeat split; vm_compute; (reflexivity || discriminate). Qed.

(** C3.  [parse], and with it [UnmarshalJSON], is meant to overwrite the
    receiver, so that the result depends on the input alone.  On [0.5] two
    receivers holding 0 and 1 unit end with different values: the one that
    held 1 unit ends with 1.5 units. *)
Theorem parse_keeps_prior_value :
  parse 0 (gs "0.5") = Ok 500000000000000000 /\
  parse 1 (gs "0.5") = Ok 1500000000000000000 /\
  UnmarshalJSON (mkCurrency 0) (gs "0.5") = Ok (mkCurrency 500000000000000000) /\
  UnmarshalJSON (mkCurrency 1) (gs "0.5") = Ok (mkCurrency 1500000000000000000).
Proof. repeat split; vm_compute; reflexivity. Qed.

(** C4.  A negative value is meant to render with its minus sign in the
    whole-unit segment and none in the fraction digits.  The value of -5
    atto units renders as [0.0000000000000000-5]: the sign sits in the
    fraction segment, and the whole-unit segment is [0]. *)
Theorem stringify_small_negative :
  StringFixed (mkCurrency (-5)) 18 = gs "0.0000000000000000-5" /\
  String (mkCurrency (-5)) = gs "0.0000000000000000-5" /\
  Split (String (mkCurrency (-5))) = [gs "0"; gs "0000000000000000-5"] /\
  In "-"%char (gs "0000000000000000-5") /\
  ~ In "-"%char (gs "0").
Proof.
  repeat split; try (vm_compute; reflexivity).
  - simpl. tauto.
  - simpl. intros [H | H]; [discriminate H | exact H].
Qed.

(** ** When [parse] fails *)

Section ParseErrors.

Lemma SetString_None (l : gostring) :
  SetString l = None <-> ~ is_signed_literal l.
Proof.
  split.
  - intros H [p Hp]. apply SetString_literal in Hp. congruence.
  - intros H. destruct (SetString l) as [p |] eqn:E; [| reflexivity].
    exfalso. apply H. exists p. now apply literal_SetString.
Qed.

Lemma len_pos_iff (l : gostring) : (len l >? 0) = true <-> l <> [].
Proof.
  rewrite Z.gtb_ltb, Z.ltb_lt. destruct l as [| c r].
  - change (len []) with 0. split; [lia | congruence].
  - pose proof (len_pos_cons c r). split; [discriminate | lia].
Qed.

Lemma len_zero_iff (l : gostring) : (len l >? 0) = false <-> l = [].
Proof.
  destruct l as [| c r].
  - split; reflexivity.
  - pose proof (len_pos_cons c r) as H.
    apply Z.gt_lt_iff, Z.gtb_gt in H. rewrite H. split; discriminate.
Qed.

Lemma parse_fields_error (p : Z) (s pre post : gostring) (e : error) :
  parse_fields p s pre post = Err e <->
  (pre <> [] /\ ~ is_signed_literal pre /\ e = Errorf "invalid decimal " s) \/
  ((pre = [] \/ is_signed_literal pre) /\
   zstripPre (firstn 18 post) <> [] /\
   ~ is_signed_literal (zstripPre (firstn 18 post)) /\
   e = Errorf "invalid fraction " s).
Proof.
  unfold parse_fields. cbv zeta. rewrite truncate_firstn.
  set (post2 := zstripPre (firstn 18 post)).
  destruct (len pre >? 0) eqn:Epre.
  - apply len_pos_iff in Epre.
    destruct (SetString pre) as [p1 |] eqn:S1.
    + assert (L1 : is_signed_literal pre)
        by (exists p1; now apply literal_SetString).
      destruct (len post2 >? 0) eqn:Epost.
      * apply len_pos_iff in Epost.
        destruct (SetString post2) as [f |] eqn:S2.
        -- assert (L2 : is_signed_literal post2)
             by (exists f; now apply literal_SetString).
           split; [discriminate | intros [H | H]; tauto].
        -- apply SetString_None in S2. split.
           ++ intros [= <-]. right. tauto.
           ++ intros [H | H]; [tauto |]. destruct H as (_ & _ & _ & ->).
              reflexivity.
      * apply len_zero_iff in Epost.
        split; [discriminate | intros [H | H]; tauto].
    + apply SetString_None in S1. split.
      * intros [= <-]. left. tauto.
      * intros [H | H]; [| tauto]. destruct H as (_ & _ & ->). reflexivity.
  - apply len_zero_iff in Epre.
    destruct (len post2 >? 0) eqn:Epost.
    + apply len_pos_iff in Epost.
      destruct (SetString post2) as [f |] eqn:S2.
      * assert (L2 : is_signed_literal post2)
          by (exists f; now apply literal_SetString).
        split; [discriminate | intros [H | H]; tauto].
      * apply SetString_None in S2. split.
        -- intros [= <-]. right. tauto.
        -- intros [H | H]; [tauto |]. destruct H as (_ & _ & _ & ->).
           reflexivity.
    + apply len_zero_iff in Epost.
      split; [discriminate | intros [H | H]; tauto].
Qed.

(** X4.  [parse] fails in exactly three ways, each with its own message:
    more than one dot; a non-empty stripped integer segment that
    [SetString] rejects; a non-empty fraction segment that [SetString]
    rejects.  [SetString] takes a sign, also on the fraction segment. *)
Lemma parse_error_iff (p : Z) (s : gostring) (e : error) :
  parse p s = Err e <->
  ((1 < count_dots s)%nat /\ e = Errorf "malformed decimal " s) \/
  ((count_dots s <= 1)%nat /\ int_segment s <> [] /\
   ~ is_signed_literal (int_segment s) /\ e = Errorf "invalid decimal " s) \/
  ((count_dots s <= 1)%nat /\
   (int_segment s = [] \/ is_signed_literal (int_segment s)) /\
   frac_segment s <> [] /\ ~ is_signed_literal (frac_segment s) /\
   e = Errorf "invalid fraction " s).
Proof.
  unfold parse, int_segment, frac_segment.
  pose proof (Split_length s) as L.
  destruct (Split s) as [| v0 [| v1 [| v2 r]]] eqn:E; simpl in L.
  - discriminate L.
  - apply Split_one_inv in E. subst v0. cbn [nth].
    rewrite parse_fields_error.
    change (zstripPost []) with (@nil ascii).
    split.
    + intros [H | H]; [right; left | right; right];
        (split; [lia | tauto]).
    + intros [[H _] | [H | H]]; [lia | left; tauto | right; tauto].
  - cbn [nth]. rewrite parse_fields_error.
    split.
    + intros [H | H]; [right; left | right; right];
        (split; [lia | tauto]).
    + intros [[H _] | [H | H]]; [lia | left; tauto | right; tauto].
  - split.
    + intros [= <-]. left. split; [lia | reflexivity].
    + intros [[_ ->] | [[H _] | [H _]]]; [reflexivity | lia | lia].
Qed.

End ParseErrors.

(** C6.  [parse] is meant to fail with "invalid fraction" whenever the
    fraction segment, cut and stripped, is non-empty and not an unsigned
    decimal literal.  On [1.-5] that segment is [-5], which is no unsigned
    literal, and [parse] succeeds, storing 1 - 0.05 units. *)
Theorem parse_accepts_signed_fraction :
  parse 0 (gs "1.-5") = Ok 950000000000000000 /\
  count_dots (gs "1.-5") = 1%nat /\
  frac_segment (gs "1.-5") = gs "-5" /\
  ~ unsigned_literal (gs "-5").
Proof.
  repeat split; try (vm_compute; reflexivity).
  intros [_ H]. discriminate H.
Qed.

(** ** The receiver's prior value *)

Section Receiver.

(** When something is left of the integer part, [SetString] overwrites the
    receiver and its prior value plays no part. *)
Lemma parse_fields_overwrites (p p' : Z) (s pre post : gostring) :
  pre <> [] -> parse_fields p s pre post = parse_fields p' s pre post.
Proof.
  intros H. apply len_pos_iff in H. unfold parse_fields. now rewrite H.
Qed.

(** X5.  When something is left of the integer segment after its leading
    zeros are stripped, the outcome of [parse] does not depend on what the
    receiver held. *)
Lemma parse_overwrites (p p' : Z) (s : gostring) :
  int_segment s <> [] -> parse p s = parse p' s.
Proof.
  unfold int_segment, parse. intros H.
  destruct (Split s) as [| v0 [| v1 [| v2 r]]] eqn:E; try reflexivity.
  - apply Split_one_inv in E. subst v0. cbn [nth] in H.
    now apply parse_fields_overwrites.
  - cbn [nth] in H. now apply parse_fields_overwrites.
Qed.

Lemma parse_overwrites_witness :
  int_segment (gs "012.5") <> [] /\
  parse 7 (gs "012.5") = parse 0 (gs "012.5").
Proof.
  assert (H : int_segment (gs "012.5") <> []) by (vm_compute; discriminate).
  split; [exact H |].
  exact (parse_overwrites 7 0 (gs "012.5") H).
Defined.

(** When nothing is left of it, the prior value is scaled and kept. *)
Lemma parse_keeps (p : Z) (ip fp : gostring) :
  count_dots ip = 0%nat -> zstripPre ip = [] -> all_digits fp ->
  parse p (ip ++ "."%char :: fp) = Ok (p * 10 ^ 18 + frac_units fp).
Proof.
  intros Hi Hz Hf.
  assert (Hd : int_part_denotes (zstripPre ip) 0) by (left; now split).
  rewrite (parse_dotted p 0 ip fp Hi (digits_no_dot fp Hf)
             (all_digits_firstn 18 fp Hf) Hd), Hz.
  reflexivity.
Qed.

End Receiver.

(** ** Division *)

(** C7.  With a divisor whose value is zero, [Div], [DivMod] and [Inv]
    (and the methods [Currency.Div] and [Currency.DivMod]) end in the
    division-by-zero panic of math/big, which reaches the caller; no value
    is returned, in particular not zero. *)
Theorem division_by_zero_panics (a b : Currency) :
  Int b = 0 ->
  Div a b = Panic DivisionByZero /\
  DivMod a b = Panic DivisionByZero /\
  Inv b = Panic DivisionByZero /\
  Currency_Div a b = Panic DivisionByZero /\
  Currency_DivMod a b = Panic DivisionByZero /\
  (forall q, Div a b <> Ret q) /\
  (forall qr, DivMod a b <> Ret qr) /\
  (forall q, Inv b <> Ret q).
Proof.
  intros Hb.
  unfold Div, DivMod, Inv, Currency_Div, Currency_DivMod, Int_Quo, Int_DivMod.
  rewrite Hb. cbn [Z.eqb].
  repeat split; try reflexivity; intros q H; discriminate H.
Qed.

Lemma division_by_zero_panics_witness :
  Int (mkCurrency 0) = 0 /\
  Div (mkCurrency 7) (mkCurrency 0) = Panic DivisionByZero /\
  DivMod (mkCurrency 7) (mkCurrency 0) = Panic DivisionByZero /\
  Inv (mkCurrency 0) = Panic DivisionByZero.
Proof.
  split; [reflexivity |].
  pose proof (division_by_zero_panics (mkCurrency 7) (mkCurrency 0) eq_refl)
    as (H1 & H2 & H3 & _).
  split; [exact H1 |]. split; [exact H2 | exact H3].
Defined.

(** C8.  For a divisor [b] whose value is not zero, [DivMod a b] (and the
    method [Currency.DivMod]) returns a quotient [q] and a remainder [r]
    with [a = b * q + r] and [0 <= r < |b|] on the underlying integers:
    Euclidean division, not truncation toward zero. *)
Theorem DivMod_euclidean (a b : Currency) :
  Int b <> 0 ->
  exists q r,
    DivMod a b = Ret (q, r) /\
    Currency_DivMod a b = Ret (q, r) /\
    Int a = Int b * Int q + Int r /\
    0 <= Int r < Z.abs (Int b).
Proof.
  intros Hb. unfold Currency_DivMod, DivMod, Int_DivMod.
  destruct (Int b =? 0) eqn:E; [apply Z.eqb_eq in E; contradiction |].
  pose proof (Z.quot_rem' (Int a) (Int b)) as Hqr.
  pose proof (Z.rem_bound_abs (Int a) (Int b) Hb) as Hab.
  cbv zeta.
  destruct (Z.rem (Int a) (Int b) <? 0) eqn:Em.
  - apply Z.ltb_lt in Em.
    destruct (Int b <? 0) eqn:Eb.
    + apply Z.ltb_lt in Eb.
      exists (mkCurrency (Z.quot (Int a) (Int b) + 1)),
             (mkCurrency (Z.rem (Int a) (Int b) - Int b)).
      cbn [Int]. split; [reflexivity |]. split; [reflexivity |]. split; lia.
    + apply Z.ltb_ge in Eb.
      exists (mkCurrency (Z.quot (Int a) (Int b) - 1)),
             (mkCurrency (Z.rem (Int a) (Int b) + Int b)).
      cbn [Int]. split; [reflexivity |]. split; [reflexivity |]. split; lia.
  - apply Z.ltb_ge in Em.
    exists (mkCurrency (Z.quot (Int a) (Int b))),
           (mkCurrency (Z.rem (Int a) (Int b))).
    cbn [Int]. split; [reflexivity |]. split; [reflexivity |]. split; lia.
Qed.

Lemma DivMod_euclidean_witness :
  Int (mkCurrency (-2)) <> 0 /\
  exists q r,
    DivMod (mkCurrency (-7)) (mkCurrency (-2)) = Ret (q, r) /\
    Currency_DivMod (mkCurrency (-7)) (mkCurrency (-2)) = Ret (q, r) /\
    Int (mkCurrency (-7)) = Int (mkCurrency (-2)) * Int q + Int r /\
    0 <= Int r < Z.abs (Int (mkCurrency (-2))).
Proof.
  assert (H : Int (mkCurrency (-2)) <> 0) by (cbn [Int]; lia).
  split; [exact H |].
  exact (DivMod_euclidean (mkCurrency (-7)) (mkCurrency (-2)) H).
Defined.

(** ** Precision clamping *)

(** C9.  [String] gives the same text as [StringFixed] at 18, and for every
    precision [prec] with [prec <= 0] or [prec > 18], [StringFixed] at
    [prec] gives the same text as [StringFixed] at 18. *)
Theorem StringFixed_clamps (p : Currency) :
  String p = StringFixed p 18 /\
  forall prec : Z,
    prec <= 0 \/ prec > 18 -> StringFixed p prec = StringFixed p 18.
Proof.
  split; [reflexivity |].
  intros prec H. unfold StringFixed, eExp.
  destruct H as [H | H].
  - apply Z.leb_le in H. rewrite H, orb_true_r. reflexivity.
  - apply Z.gtb_gt in H. rewrite H. reflexivity.
Qed.

Lemma StringFixed_clamps_witness :
  (-3 <= 0 \/ -3 > 18) /\
  String (mkCurrency 1234500000000000000)
    = StringFixed (mkCurrency 1234500000000000000) 18 /\
  StringFixed (mkCurrency 1234500000000000000) (-3)
    = StringFixed (mkCurrency 1234500000000000000) 18.
Proof.
  assert (H : -3 <= 0 \/ -3 > 18) by (left; lia).
  split; [exact H |].
  split.
  - exact (proj1 (StringFixed_clamps (mkCurrency 1234500000000000000))).
  - exact (proj2 (StringFixed_clamps (mkCurrency 1234500000000000000)) (-3) H).
Defined.

(** ** A minus sign in front of a zero integer part *)

Section MinusZero.

Lemma minus_zeros_denote_zero (k : nat) :
  int_part_denotes (zstripPre ("-"%char :: repeat "0"%char (S k))) 0.
Proof.
  right. rewrite zstripPre_keep by reflexivity.
  assert (Hl : 0 < len (repeat "0"%char (S k))) by (rewrite len_repeat; lia).
  pose proof (lit_minus _ Hl (all_digits_zeros (S k))) as L.
  rewrite dval_zeros in L. exact L.
Qed.

Lemma zeros_denote_zero (k : nat) :
  int_part_denotes (zstripPre (repeat "0"%char k)) 0.
Proof.
  left. split; [| reflexivity].
  rewrite <- (app_nil_r (repeat "0"%char k)). apply zstripPre_zeros.
Qed.

End MinusZero.

(** C10.  For an input whose integer part is a minus sign followed only by
    zeros (one at least) and whose fraction field has digits in its first
    18 characters, [parse] into a fresh zero value drops the minus sign: the
    stored value is the non-negative value of the fraction digits alone,
    the same as for the input without its minus sign. *)
Theorem parse_minus_zero (s ip fp : gostring) (k : nat) :
  (Split s = [ip] /\ fp = [] \/ Split s = [ip; fp]) ->
  ip = "-"%char :: repeat "0"%char (S k) ->
  all_digits (firstn 18 fp) ->
  parse 0 s = Ok (frac_units fp) /\
  0 <= frac_units fp /\
  parse 0 (tl s) = parse 0 s.
Proof.
  intros Hs Hip Hf.
  pose proof (minus_zeros_denote_zero k) as Hd. rewrite <- Hip in Hd.
  pose proof (parse_fresh s ip fp 0 Hs Hd Hf) as Hp.
  rewrite Z.mul_0_l, Z.add_0_l in Hp.
  split; [exact Hp |].
  split; [apply (frac_units_bounds fp Hf) |].
  rewrite Hp.
  destruct (fields_of_split s ip fp Hs) as [Hi [[-> ->] | [-> Hfd]]].
  - rewrite Hip. cbn [tl].
    rewrite (parse_plain 0 0 (repeat "0"%char (S k))
               (digits_no_dot _ (all_digits_zeros (S k)))
               (zeros_denote_zero (S k))).
    rewrite frac_units_nil. f_equal.
    destruct (len (zstripPre (repeat "0"%char (S k))) >? 0); reflexivity.
  - rewrite Hip. cbn [tl app].
    rewrite (parse_dotted 0 0 (repeat "0"%char (S k)) fp
               (digits_no_dot _ (all_digits_zeros (S k)))
               Hfd Hf (zeros_denote_zero (S k))).
    f_equal.
    destruct (len (zstripPre (repeat "0"%char (S k))) >? 0); reflexivity.
Qed.

Lemma parse_minus_zero_witness :
  (Split (gs "-0.5") = [gs "-0"] /\ gs "5" = [] \/
   Split (gs "-0.5") = [gs "-0"; gs "5"]) /\
  gs "-0" = "-"%char :: repeat "0"%char 1 /\
  all_digits (firstn 18 (gs "5")) /\
  parse 0 (gs "-0.5") = Ok (frac_units (gs "5")) /\
  0 <= frac_units (gs "5") /\
  parse 0 (gs "0.5") = parse 0 (gs "-0.5").
Proof.
  assert (H1 : Split (gs "-0.5") = [gs "-0"] /\ gs "5" = [] \/
               Split (gs "-0.5") = [gs "-0"; gs "5"]) by (right; reflexivity).
  assert (H2 : gs "-0" = "-"%char :: repeat "0"%char 1) by reflexivity.
  assert (H3 : all_digits (firstn 18 (gs "5"))) by reflexivity.
  split; [exact H1 |]. split; [exact H2 |]. split; [exact H3 |].
  exact (parse_minus_zero (gs "-0.5") (gs "-0") (gs "5") 0%nat H1 H2 H3).
Defined.

(** ** [pow64] within the range of [int64] *)

Section Pow64.

Lemma wrap64_small (z : Z) : - 2 ^ 63 <= z < 2 ^ 63 -> wrap64 z = z.
Proof.
  intros H. unfold wrap64.
  rewrite Z.mod_small by lia. lia.
Qed.

Lemma pow64_loop_zero (b : positive) : forall a, pow64_loop 0 a b = 0.
Proof.
  induction b as [b IH | b IH |]; intros a; cbn [pow64_loop].
  - rewrite Z.mul_0_l. change (wrap64 0) with 0. apply IH.
  - apply IH.
  - rewrite Z.mul_0_l. reflexivity.
Qed.

Lemma square_le_power (a : Z) (b : positive) :
  a <> 0 -> 1 <= a * a <= (a * a) ^ Zpos b.
Proof.
  intros Ha. assert (H1 : 1 <= a * a) by nia.
  split; [exact H1 |].
  replace (a * a) with ((a * a) ^ 1) at 1 by apply Z.pow_1_r.
  apply Z.pow_le_mono_r; lia.
Qed.

Lemma pow64_loop_exact (b : positive) :
  forall r a,
    Z.abs (r * a ^ Zpos b) < 2 ^ 63 -> pow64_loop r a b = r * a ^ Zpos b.
Proof.
  induction b as [b IH | b IH |]; intros r a H; cbn [pow64_loop].
  - (* b = 2b' + 1 *)
    assert (E : a ^ Zpos b~1 = a * (a * a) ^ Zpos b).
    { rewrite Pos2Z.inj_xI, Z.pow_add_r, Z.pow_1_r by lia.
      rewrite Z.pow_mul_r, Z.pow_2_r by lia. lia. }
    rewrite E in H |- *.
    destruct (Z.eq_dec (r * a) 0) as [Z0 | NZ].
    + rewrite Z0. change (wrap64 0) with 0. rewrite pow64_loop_zero.
      rewrite Z.mul_assoc, Z0. reflexivity.
    + assert (Ha : a <> 0) by (intros ->; lia).
      pose proof (square_le_power a b Ha) as [S1 S2].
      rewrite Z.mul_assoc, Z.abs_mul in H.
      rewrite (Z.abs_eq ((a * a) ^ Zpos b)) in H by lia.
      assert (R1 : 1 <= Z.abs (r * a)) by lia.
      rewrite (wrap64_small (r * a)) by nia.
      rewrite (wrap64_small (a * a)) by nia.
      rewrite IH; [lia |].
      rewrite Z.abs_mul, (Z.abs_eq ((a * a) ^ Zpos b)) by lia. exact H.
  - (* b = 2b' *)
    assert (E : a ^ Zpos b~0 = (a * a) ^ Zpos b).
    { rewrite Pos2Z.inj_xO, Z.pow_mul_r, Z.pow_2_r by lia. reflexivity. }
    rewrite E in H |- *.
    destruct (Z.eq_dec r 0) as [-> | NZ].
    + rewrite pow64_loop_zero. reflexivity.
    + destruct (Z.eq_dec a 0) as [-> | Ha].
      * change (wrap64 (0 * 0)) with (0 * 0). now apply IH.
      * pose proof (square_le_power a b Ha) as [S1 S2].
        rewrite Z.abs_mul in H.
        rewrite (Z.abs_eq ((a * a) ^ Zpos b)) in H by lia.
        assert (R1 : 1 <= Z.abs r) by lia.
        rewrite (wrap64_small (a * a)) by nia.
        apply IH.
        rewrite Z.abs_mul, (Z.abs_eq ((a * a) ^ Zpos b)) by lia. exact H.
  - (* b = 1 *)
    rewrite Z.pow_1_r in H |- *. apply wrap64_small. lia.
Qed.

End Pow64.

(** X1.  As long as the power fits an [int64], [pow64 a b] is [a] to the
    power [b] for every exponent [b >= 0]: the squarings that overflow are
    never multiplied into the result. *)
Theorem pow64_no_overflow (a b : Z) :
  0 <= b -> Z.abs (a ^ b) < 2 ^ 63 -> pow64 a b = a ^ b.
Proof.
  intros Hb H. destruct b as [| b | b]; [reflexivity | | lia].
  unfold pow64. rewrite pow64_loop_exact; [lia |].
  rewrite Z.mul_1_l. exact H.
Qed.

Lemma pow64_no_overflow_witness :
  0 <= 18 /\ Z.abs (10 ^ 18) < 2 ^ 63 /\ pow64 10 18 = 10 ^ 18.
Proof.
  assert (H1 : 0 <= 18) by lia.
  assert (H2 : Z.abs (10 ^ 18) < 2 ^ 63) by reflexivity.
  split; [exact H1 |]. split; [exact H2 |].
  exact (pow64_no_overflow 10 18 H1 H2).
Defined.

(** ** The two stripping loops *)

Section StripLoops.

Lemma zstripPost_loop_last (s : gostring) (j : nat) :
  (j <= length s)%nat ->
  zstripPost_loop s j = [] \/
  exists l c, zstripPost_loop s j = l ++ [c] /\ is_zero_char c = false.
Proof.
  induction j as [| i IH]; intros Hj; [now left |].
  cbn [zstripPost_loop].
  destruct (is_zero_char (nth i s "0"%char)) eqn:E; [apply IH; lia |].
  right. exists (firstn i s), (nth i s "0"%char). split; [| exact E].
  rewrite <- (firstn_skipn i s) at 1.
  rewrite (skipn_nth s i "0"%char) by lia.
  rewrite firstn_app, firstn_firstn.
  assert (L : length (firstn i s) = i) by (rewrite length_firstn; lia).
  rewrite L. replace (Nat.min (S i) i) with i by lia.
  replace (S i - i)%nat with 1%nat by lia. reflexivity.
Qed.

Lemma rev_zeros (k : nat) : rev (repeat "0"%char k) = repeat "0"%char k.
Proof.
  induction k as [| k IH]; [reflexivity |].
  simpl rev. rewrite IH. symmetry. apply (repeat_cons k "0"%char).
Qed.

End StripLoops.

(** X2.  [zstripPre] removes exactly the leading run of ['0'] characters:
    the input is that run followed by the result, and the result is empty or
    starts with another character. *)
Theorem zstripPre_decompose (s : gostring) :
  exists k,
    s = repeat "0"%char k ++ zstripPre s /\
    (zstripPre s = [] \/
     exists c r, zstripPre s = c :: r /\ c <> "0"%char).
Proof.
  induction s as [| c s (k & Hk & Hh)].
  - exists 0%nat. split; [reflexivity | now left].
  - cbn [zstripPre]. destruct (is_zero_char c) eqn:E.
    + exists (S k). split; [| exact Hh].
      apply Ascii.eqb_eq in E. subst c. simpl. now rewrite <- Hk.
    + exists 0%nat. split; [reflexivity |].
      right. exists c, s. split; [reflexivity |].
      intros ->. discriminate E.
Qed.

(** X3.  [zstripPost] is [zstripPre] seen from the other end: it removes
    exactly the trailing run of ['0'] characters. *)
Theorem zstripPost_mirror (s : gostring) :
  zstripPost s = rev (zstripPre (rev s)).
Proof.
  destruct (zstripPost_spec s) as [k Hk].
  rewrite Hk at 2. rewrite rev_app_distr, rev_zeros, zstripPre_zeros.
  destruct (zstripPost_loop_last s (length s) (Nat.le_refl _))
    as [E | (l & c & E & Hc)]; fold (zstripPost s) in E; rewrite E.
  - reflexivity.
  - rewrite rev_app_distr.
    change (rev [c] ++ rev l) with (c :: rev l).
    rewrite (zstripPre_keep c (rev l) Hc).
    cbn [rev]. now rewrite rev_involutive.
Qed.

(** ** The shape of a rendering *)

Section Shape.

(** Whatever the value and the precision, [stringify] cuts the same 18
    fraction characters. *)
Lemma stringify_parts (b : Z) :
  exists m x,
    len x = 18 /\
    (m = gs "0" \/ 0 < len m /\ m ++ x = Int_String b) /\
    forall oprec,
      stringify b oprec =
      m ++ "."%char :: (if len x >? oprec then slice_to x oprec else x).
Proof.
  unfold stringify. remember (Int_String b) as s eqn:Es. cbv zeta.
  pose proof (len_nonneg s) as Hs0.
  destruct (len s <=? eExp) eqn:E; unfold eExp in E.
  - apply Z.leb_le in E.
    exists (gs "0"),
      (if eExp - len s >? 0 then slice_to zeroes (eExp - len s) ++ s else s).
    split; [| split; [now left | reflexivity]].
    unfold eExp. destruct (18 - len s >? 0) eqn:P.
    + rewrite len_app. unfold slice_to. rewrite zeroes_value, firstn_zeros.
      rewrite len_repeat. lia.
    + rewrite Z.gtb_ltb in P. apply Z.ltb_ge in P. lia.
  - apply Z.leb_gt in E.
    exists (slice_to s (len s - eExp)), (slice_from s (len s - eExp)).
    assert (Hx : len (slice_from s (len s - eExp)) = 18).
    { unfold slice_from, len. rewrite length_skipn. unfold eExp, len in *. lia. }
    split; [exact Hx |]. split; [| reflexivity].
    right. split.
    + unfold slice_to, len. rewrite length_firstn. unfold eExp, len in *. lia.
    + unfold slice_to, slice_from. apply firstn_skipn.
Qed.

Lemma app_same_length (a a' b b' : gostring) :
  length a = length a' -> a ++ b = a' ++ b' -> a = a' /\ b = b'.
Proof.
  revert a'. induction a as [| c a IH]; intros [| c' a'] Hl H;
    try discriminate Hl.
  - now split.
  - injection H as -> H. injection Hl as Hl.
    destruct (IH a' Hl H) as [-> ->]. now split.
Qed.

(** Rendering at a precision in [1..18] is the full rendering without its
    last characters. *)
Lemma stringify_prefix (b oprec : Z) (m x : gostring) :
  0 <= oprec <= 18 -> len x = 18 ->
  stringify b eExp = m ++ "."%char :: x ->
  stringify b oprec = m ++ "."%char :: firstn (Z.to_nat oprec) x.
Proof.
  intros Ho Hx Hfull.
  destruct (stringify_parts b) as (m' & x' & Hx' & _ & Hall).
  assert (Hfull' : stringify b eExp = m' ++ "."%char :: x').
  { rewrite Hall, Hx'. reflexivity. }
  assert (Hcut : stringify b oprec
                 = m' ++ "."%char :: firstn (Z.to_nat oprec) x').
  { rewrite Hall, Hx'. destruct (18 >? oprec) eqn:G; [reflexivity |].
    rewrite Z.gtb_ltb in G. apply Z.ltb_ge in G.
    rewrite firstn_all2; [reflexivity | unfold len in Hx'; lia]. }
  rewrite Hfull in Hfull'.
  (* both splittings of the full text leave 18 characters after the dot *)
  assert (Hl : length m = length m').
  { apply (f_equal (@length ascii)) in Hfull'.
    rewrite !length_app in Hfull'. cbn [length] in Hfull'.
    unfold len in Hx, Hx'. lia. }
  destruct (app_same_length _ _ _ _ Hl Hfull') as [<- Ht].
  injection Ht as <-.
  exact Hcut.
Qed.

End Shape.

(** X10.  For a precision in [1..18], [StringFixed] gives the text of
    [String] without its last [18 - prec] characters, for every value:
    digits are cut, never rounded. *)
Theorem StringFixed_truncates (p : Currency) (prec : Z) :
  1 <= prec <= 18 ->
  StringFixed p prec =
  firstn (length (String p) - Z.to_nat (18 - prec)) (String p).
Proof.
  intros Hp.
  destruct (stringify_parts (Int p)) as (m & x & Hx & _ & Hall).
  assert (Hfull : stringify (Int p) eExp = m ++ "."%char :: x).
  { rewrite Hall, Hx. reflexivity. }
  assert (Hfix : StringFixed p prec = stringify (Int p) prec).
  { unfold StringFixed, eExp.
    destruct (prec >? 18) eqn:A;
      [rewrite Z.gtb_ltb in A; apply Z.ltb_lt in A; lia |].
    destruct (prec <=? 0) eqn:B; [apply Z.leb_le in B; lia | reflexivity]. }
  rewrite Hfix, (stringify_prefix (Int p) prec m x ltac:(lia) Hx Hfull).
  unfold String. rewrite Hfull.
  replace (length (m ++ "."%char :: x) - Z.to_nat (18 - prec))%nat
    with (length m + S (Z.to_nat prec))%nat
    by (rewrite length_app; cbn [length]; unfold len in Hx; lia).
  rewrite firstn_app_2. reflexivity.
Qed.

Lemma StringFixed_truncates_witness :
  1 <= 5 <= 18 /\
  StringFixed (mkCurrency (-123456987654321000000000)) 5 =
  firstn (length (String (mkCurrency (-123456987654321000000000)))
          - Z.to_nat (18 - 5))
         (String (mkCurrency (-123456987654321000000000))).
Proof.
  assert (H : 1 <= 5 <= 18) by lia.
  split; [exact H |].
  exact (StringFixed_truncates (mkCurrency (-123456987654321000000000)) 5 H).
Defined.

(** X11.  A non-negative value renders as its quotient by [10^18], a dot,
    and its remainder by [10^18] written with exactly 18 digits; the whole
    part is never empty. *)
Theorem String_nonneg (p : Currency) :
  0 <= Int p ->
  exists m x,
    String p = m ++ "."%char :: x /\
    all_digits m /\ 0 < len m /\ dval m = Int p / 10 ^ 18 /\
    all_digits x /\ len x = 18 /\ dval x = Int p mod 10 ^ 18.
Proof.
  intros Hp.
  destruct (stringify_nonneg (Int p) Hp)
    as (m & x & Hs & Hm & Hx & Hlx & Hv & _).
  pose proof (dval_bounds x Hx) as Hb. rewrite Hlx in Hb.
  exists m, x. unfold String.
  split; [exact Hs |]. split; [exact Hm |].
  split.
  - destruct (stringify_parts (Int p)) as (m' & x' & Hx' & Hm' & Hall).
    assert (Hfull : stringify (Int p) eExp = m' ++ "."%char :: x').
    { rewrite Hall, Hx'. reflexivity. }
    assert (Hlen : len m = len m').
    { rewrite Hs in Hfull. apply (f_equal len) in Hfull.
      rewrite !len_app, !len_cons in Hfull. lia. }
    rewrite Hlen. destruct Hm' as [-> | [Hpos _]]; [reflexivity | exact Hpos].
  - split; [apply (Z.div_unique _ _ _ (dval x)); lia |].
    split; [exact Hx |]. split; [exact Hlx |].
    apply (Z.mod_unique _ _ (dval m)); lia.
Qed.

Lemma String_nonneg_witness :
  0 <= Int (mkCurrency 4560000000000000) /\
  exists m x,
    String (mkCurrency 4560000000000000) = m ++ "."%char :: x /\
    all_digits m /\ 0 < len m /\
    dval m = Int (mkCurrency 4560000000000000) / 10 ^ 18 /\
    all_digits x /\ len x = 18 /\
    dval x = Int (mkCurrency 4560000000000000) mod 10 ^ 18.
Proof.
  assert (H : 0 <= Int (mkCurrency 4560000000000000)) by (cbn [Int]; lia).
  split; [exact H |].
  exact (String_nonneg (mkCurrency 4560000000000000) H).
Defined.

(** X12.  A value of minus one unit or less renders as a minus sign, the
    digits of the quotient of its magnitude by [10^18], a dot, and the
    remainder of its magnitude written with exactly 18 digits. *)
Theorem String_negative_units (p : Currency) :
  Int p <= - 10 ^ 18 ->
  exists m x,
    String p = ("-"%char :: m) ++ "."%char :: x /\
    all_digits m /\ 0 < len m /\ dval m = (- Int p) / 10 ^ 18 /\
    all_digits x /\ len x = 18 /\ dval x = (- Int p) mod 10 ^ 18.
Proof.
  intros Hp.
  destruct (stringify_sign_in_whole (Int p) ltac:(lia))
    as (m & x & Hs & Hm & Hx & Hlx & Hv).
  pose proof (dval_bounds x Hx) as Hb. rewrite Hlx in Hb.
  exists m, x. unfold String.
  split; [exact Hs |]. split; [exact Hm |].
  split.
  - destruct m as [| c m]; [| apply len_pos_cons].
    rewrite dval_nil in Hv. lia.
  - split; [apply (Z.div_unique _ _ _ (dval x)); lia |].
    split; [exact Hx |]. split; [exact Hlx |].
    apply (Z.mod_unique _ _ (dval m)); lia.
Qed.

Lemma String_negative_units_witness :
  Int (mkCurrency (-1500000000000000000)) <= - 10 ^ 18 /\
  exists m x,
    String (mkCurrency (-1500000000000000000))
      = ("-"%char :: m) ++ "."%char :: x /\
    all_digits m /\ 0 < len m /\
    dval m = (- Int (mkCurrency (-1500000000000000000))) / 10 ^ 18 /\
    all_digits x /\ len x = 18 /\
    dval x = (- Int (mkCurrency (-1500000000000000000))) mod 10 ^ 18.
Proof.
  assert (H : Int (mkCurrency (-1500000000000000000)) <= - 10 ^ 18)
    by (cbn [Int]; lia).
  split; [exact H |].
  exact (String_negative_units (mkCurrency (-1500000000000000000)) H).
Defined.

(** ** Rendering and parsing back *)

Section RenderParse.

Lemma StringFixed_in_range (p : Currency) (prec : Z) :
  1 <= prec <= 18 -> StringFixed p prec = stringify (Int p) prec.
Proof.
  intros Hp. unfold StringFixed, eExp.
  destruct (prec >? 18) eqn:A;
    [rewrite Z.gtb_ltb in A; apply Z.ltb_lt in A; lia |].
  destruct (prec <=? 0) eqn:B; [apply Z.leb_le in B; lia | reflexivity].
Qed.

Lemma truncated_units (u M A B k : Z) :
  0 <= k <= 18 -> 0 <= B < 10 ^ k ->
  u = M * 10 ^ 18 + (A * 10 ^ k + B) ->
  M * 10 ^ 18 + A * 10 ^ k = u - u mod 10 ^ k.
Proof.
  intros Hk HB Hu.
  assert (E : 10 ^ 18 = 10 ^ (18 - k) * 10 ^ k).
  { rewrite <- Z.pow_add_r by lia. f_equal. lia. }
  assert (Hm : u mod 10 ^ k = B).
  { symmetry. apply (Z.mod_unique _ _ (M * 10 ^ (18 - k) + A)); [lia |].
    rewrite Hu, E. ring. }
  rewrite Hm, Hu. ring.
Qed.

End RenderParse.

(** X13.  Rendering a non-negative value at a precision in [1..18] and
    parsing the text with [NewFromString] gives the value with everything
    below that precision cut off; at precision 18 it gives the value. *)
Theorem render_then_parse (v : Currency) (prec : Z) :
  0 <= Int v -> 1 <= prec <= 18 ->
  NewFromString (StringFixed v prec)
  = Ok (mkCurrency (Int v - Int v mod 10 ^ (18 - prec))).
Proof.
  intros Hv Hp.
  destruct (stringify_nonneg (Int v) Hv)
    as (m & x & Hs & Hm & Hx & Hlx & Hval & Hden).
  rewrite (StringFixed_in_range v prec Hp).
  rewrite (stringify_prefix (Int v) prec m x ltac:(lia) Hlx Hs).
  set (x1 := firstn (Z.to_nat prec) x).
  assert (Hx1 : all_digits x1) by (apply all_digits_firstn; exact Hx).
  assert (Hl1 : len x1 = prec).
  { unfold x1, len. rewrite length_firstn. unfold len in Hlx. lia. }
  apply NewFromString_parse.
  rewrite (parse_dotted 0 (dval m) m x1 (digits_no_dot m Hm)
             (digits_no_dot x1 Hx1) (all_digits_firstn 18 x1 Hx1) Hden).
  rewrite (denoted_or_zero _ _ Hden).
  rewrite (frac_units_short x1) by lia. rewrite Hl1.
  f_equal.
  pose proof (all_digits_skipn (Z.to_nat prec) x Hx) as Hx2.
  pose proof (dval_bounds _ Hx2) as Hb2.
  assert (Hl2 : len (skipn (Z.to_nat prec) x) = 18 - prec).
  { unfold len. rewrite length_skipn. unfold len in Hlx. lia. }
  rewrite Hl2 in Hb2.
  apply (truncated_units (Int v) (dval m) (dval x1)
           (dval (skipn (Z.to_nat prec) x)) (18 - prec)); [lia | exact Hb2 |].
  rewrite <- Hl2, <- dval_app. unfold x1. rewrite firstn_skipn.
  symmetry. exact Hval.
Qed.

Lemma render_then_parse_witness :
  0 <= Int (mkCurrency 123456987654321000000000) /\
  1 <= 5 <= 18 /\
  NewFromString (StringFixed (mkCurrency 123456987654321000000000) 5)
  = Ok (mkCurrency (Int (mkCurrency 123456987654321000000000)
                    - Int (mkCurrency 123456987654321000000000)
                      mod 10 ^ (18 - 5))).
Proof.
  assert (H1 : 0 <= Int (mkCurrency 123456987654321000000000))
    by (cbn [Int]; lia).
  assert (H2 : 1 <= 5 <= 18) by lia.
  split; [exact H1 |]. split; [exact H2 |].
  exact (render_then_parse (mkCurrency 123456987654321000000000) 5 H1 H2).
Defined.

(** ** Digits [parse] does not look at *)

(** X6.  Fraction digits after the 18th play no part: two inputs with the
    same integer part whose fraction digits agree on the first 18 parse to
    the same value (excess digits are dropped, not rounded). *)
Theorem parse_ignores_excess_digits (p0 p : Z) (ip fp fp' : gostring) :
  count_dots ip = 0%nat -> int_part_denotes (zstripPre ip) p ->
  all_digits fp -> all_digits fp' ->
  firstn 18 fp = firstn 18 fp' ->
  parse p0 (ip ++ "."%char :: fp) = parse p0 (ip ++ "."%char :: fp') /\
  exists u, parse p0 (ip ++ "."%char :: fp) = Ok u.
Proof.
  intros Hi Hp Hf Hf' E.
  rewrite (parse_dotted p0 p ip fp Hi (digits_no_dot fp Hf)
             (all_digits_firstn 18 fp Hf) Hp).
  rewrite (parse_dotted p0 p ip fp' Hi (digits_no_dot fp' Hf')
             (all_digits_firstn 18 fp' Hf') Hp).
  unfold frac_units. cbv zeta. rewrite E.
  split; [reflexivity | eexists; reflexivity].
Qed.

Lemma parse_ignores_excess_digits_witness :
  count_dots (gs "7") = 0%nat /\
  int_part_denotes (zstripPre (gs "7")) 7 /\
  all_digits (gs "0000000000000000019") /\
  all_digits (gs "00000000000000000111") /\
  firstn 18 (gs "0000000000000000019") = firstn 18 (gs "00000000000000000111") /\
  parse 0 (gs "7" ++ "."%char :: gs "0000000000000000019")
  = parse 0 (gs "7" ++ "."%char :: gs "00000000000000000111") /\
  exists u, parse 0 (gs "7" ++ "."%char :: gs "0000000000000000019") = Ok u.
Proof.
  assert (H1 : count_dots (gs "7") = 0%nat) by reflexivity.
  assert (H2 : int_part_denotes (zstripPre (gs "7")) 7).
  { right. apply (lit_plain (gs "7")); reflexivity. }
  assert (H3 : all_digits (gs "0000000000000000019")) by reflexivity.
  assert (H4 : all_digits (gs "00000000000000000111")) by reflexivity.
  assert (H5 : firstn 18 (gs "0000000000000000019")
               = firstn 18 (gs "00000000000000000111")) by reflexivity.
  split; [exact H1 |]. split; [exact H2 |]. split; [exact H3 |].
  split; [exact H4 |]. split; [exact H5 |].
  exact (parse_ignores_excess_digits 0 7 (gs "7")
           (gs "0000000000000000019") (gs "00000000000000000111")
           H1 H2 H3 H4 H5).
Defined.

(** X7.  Zeros in front of the integer digits and zeros behind the
    fraction digits do not change what an unsigned input parses to. *)
Theorem parse_zero_padding (p0 : Z) (ip fp : gostring) (k j : nat) :
  all_digits ip -> all_digits fp ->
  parse p0 ((repeat "0"%char k ++ ip) ++ "."%char :: fp ++ repeat "0"%char j)
  = parse p0 (ip ++ "."%char :: fp).
Proof.
  intros Hi Hf.
  assert (Hi' : all_digits (repeat "0"%char k ++ ip)).
  { apply all_digits_app. split; [apply all_digits_zeros | exact Hi]. }
  assert (Hf' : all_digits (fp ++ repeat "0"%char j)).
  { apply all_digits_app. split; [exact Hf | apply all_digits_zeros]. }
  assert (Hd : int_part_denotes (zstripPre (repeat "0"%char k ++ ip)) (dval ip)).
  { rewrite zstripPre_zeros. now apply digits_denote. }
  rewrite (parse_dotted p0 (dval ip) _ _ (digits_no_dot _ Hi')
             (digits_no_dot _ Hf') (all_digits_firstn 18 _ Hf') Hd).
  rewrite (parse_dotted p0 (dval ip) ip fp (digits_no_dot _ Hi)
             (digits_no_dot _ Hf) (all_digits_firstn 18 _ Hf)
             (digits_denote ip Hi)).
  now rewrite zstripPre_zeros, frac_units_app_zeros.
Qed.

Lemma parse_zero_padding_witness :
  all_digits (gs "23") /\ all_digits (gs "00456") /\
  parse 0 ((repeat "0"%char 2 ++ gs "23") ++ "."%char
             :: gs "00456" ++ repeat "0"%char 5)
  = parse 0 (gs "23" ++ "."%char :: gs "00456").
Proof.
  assert (H1 : all_digits (gs "23")) by reflexivity.
  assert (H2 : all_digits (gs "00456")) by reflexivity.
  split; [exact H1 |]. split; [exact H2 |].
  exact (parse_zero_padding 0 (gs "23") (gs "00456") 2 5 H1 H2).
Defined.

(** X19.  [NewFromString] is [parse] into a fresh zero value for every
    input: the shortcut for the empty string gives what [parse] would. *)
Theorem NewFromString_is_parse (s : gostring) :
  NewFromString s =
  match parse 0 s with
  | Ok u => Ok (mkCurrency u)
  | Err e => Err e
  end.
Proof.
  unfold NewFromString. destruct (len s >? 0) eqn:E; [reflexivity |].
  apply len_zero_iff in E. subst s. reflexivity.
Qed.

(** ** Arithmetic and comparison *)

Section Arithmetic.

Lemma Int_Cmp_zero (x y : Z) : Int_Cmp x y = 0 <-> x = y.
Proof.
  unfold Int_Cmp. destruct (Z.compare_spec x y) as [E | L | G]; split;
    intros K; try discriminate K; try lia; reflexivity.
Qed.

Lemma zero_eqb_Cmp (x y : Z) : (0 =? Int_Cmp x y) = true <-> x = y.
Proof.
  split; intros H.
  - apply Z.eqb_eq in H. apply Int_Cmp_zero. lia.
  - apply Z.eqb_eq. apply Int_Cmp_zero in H. lia.
Qed.

End Arithmetic.

(** X14.  For a divisor that is not zero, [Div] (and the method
    [Currency.Div]) returns the quotient truncated toward zero: what is
    left over is smaller in magnitude than the divisor and has the sign of
    the dividend, and the divisor times the quotient does not exceed the
    dividend in magnitude. *)
Theorem Div_truncates (a b : Currency) :
  Int b <> 0 ->
  exists q,
    Div a b = Ret q /\ Currency_Div a b = Ret q /\
    Z.abs (Int a - Int b * Int q) < Z.abs (Int b) /\
    0 <= (Int a - Int b * Int q) * Int a /\
    Z.abs (Int b * Int q) <= Z.abs (Int a).
Proof.
  intros Hb. exists (mkCurrency (Z.quot (Int a) (Int b))).
  unfold Div, Currency_Div, Int_Quo.
  destruct (Int b =? 0) eqn:E; [apply Z.eqb_eq in E; contradiction |].
  cbn [Int].
  pose proof (Z.quot_rem' (Int a) (Int b)) as Hqr.
  assert (Hr : Int a - Int b * Z.quot (Int a) (Int b) = Z.rem (Int a) (Int b))
    by lia.
  rewrite Hr.
  split; [reflexivity |]. split; [reflexivity |].
  split; [apply Z.rem_bound_abs; exact Hb |].
  split; [apply Z.rem_sign_mul; exact Hb |].
  rewrite Z.abs_mul, <- Z.quot_abs by exact Hb.
  apply Z.mul_quot_le; lia.
Qed.

Lemma Div_truncates_witness :
  Int (mkCurrency 2) <> 0 /\
  exists q,
    Div (mkCurrency (-7)) (mkCurrency 2) = Ret q /\
    Currency_Div (mkCurrency (-7)) (mkCurrency 2) = Ret q /\
    Z.abs (Int (mkCurrency (-7)) - Int (mkCurrency 2) * Int q)
      < Z.abs (Int (mkCurrency 2)) /\
    0 <= (Int (mkCurrency (-7)) - Int (mkCurrency 2) * Int q)
         * Int (mkCurrency (-7)) /\
    Z.abs (Int (mkCurrency 2) * Int q) <= Z.abs (Int (mkCurrency (-7))).
Proof.
  assert (H : Int (mkCurrency 2) <> 0) by (cbn [Int]; lia).
  split; [exact H |].
  exact (Div_truncates (mkCurrency (-7)) (mkCurrency 2) H).
Defined.

(** X15.  For a value that is not zero, [Inv] returns [10^18] divided by
    the value's integer, truncated; the result is zero exactly when the
    value is more than one unit in magnitude. *)
Theorem Inv_quotient (a : Currency) :
  Int a <> 0 ->
  exists q,
    Inv a = Ret q /\ Int q = Z.quot (10 ^ 18) (Int a) /\
    (IsZero q = true <-> 10 ^ 18 < Z.abs (Int a)).
Proof.
  intros Ha. exists (mkCurrency (Z.quot (10 ^ 18) (Int a))).
  unfold Inv, Int_Quo.
  destruct (Int a =? 0) eqn:E; [apply Z.eqb_eq in E; contradiction |].
  rewrite iBigMult_value. cbn [Int].
  split; [reflexivity |]. split; [reflexivity |].
  unfold IsZero, zero. cbn [Int]. rewrite zero_eqb_Cmp.
  rewrite (Z.quot_small_iff (10 ^ 18) (Int a) Ha).
  rewrite (Z.abs_eq (10 ^ 18)) by lia. reflexivity.
Qed.

Lemma Inv_quotient_witness :
  Int (mkCurrency 2000000000000000000) <> 0 /\
  exists q,
    Inv (mkCurrency 2000000000000000000) = Ret q /\
    Int q = Z.quot (10 ^ 18) (Int (mkCurrency 2000000000000000000)) /\
    (IsZero q = true
     <-> 10 ^ 18 < Z.abs (Int (mkCurrency 2000000000000000000))).
Proof.
  assert (H : Int (mkCurrency 2000000000000000000) <> 0)
    by (cbn [Int]; lia).
  split; [exact H |].
  exact (Inv_quotient (mkCurrency 2000000000000000000) H).
Defined.



(** X17.  [Cmp] orders values by their integers, swapping the operands
    negates it, and [Eq], the method [Currency.Eq] and [IsZero] say what
    [Cmp] says. *)
Theorem Cmp_orders (a b : Currency) :
  (Cmp a b = -1 <-> Int a < Int b) /\
  (Cmp a b = 0 <-> Int a = Int b) /\
  (Cmp a b = 1 <-> Int b < Int a) /\
  Cmp b a = - Cmp a b /\
  (Eq a b = true <-> Cmp a b = 0) /\
  Currency_Eq a b = Eq a b /\
  (IsZero a = true <-> Cmp a New = 0).
Proof.
  unfold Cmp, Eq, Currency_Eq, IsZero, New, zero, Int_Cmp. cbn [Int].
  rewrite (Z.compare_antisym (Int a) (Int b)).
  destruct (Z.compare_spec (Int a) (Int b)) as [E | L | G]; cbn [CompOpp];
    (repeat split; intros; try discriminate; try lia; try reflexivity);
    try (destruct (Z.compare_spec (Int a) 0); (discriminate || reflexivity)).
Qed.


(** X20.  For a non-negative dividend and a positive divisor, [DivMod]
    returns the quotient [Div] returns, with what [Div] leaves over as the
    modulus. *)
Theorem DivMod_agrees_with_Div (a b : Currency) :
  0 <= Int a -> 0 < Int b ->
  exists q,
    Div a b = Ret q /\
    DivMod a b = Ret (q, mkCurrency (Int a - Int b * Int q)).
Proof.
  intros Ha Hb. exists (mkCurrency (Z.quot (Int a) (Int b))).
  unfold Div, DivMod, Int_Quo, Int_DivMod.
  destruct (Int b =? 0) eqn:E; [apply Z.eqb_eq in E; lia |].
  cbv zeta. cbn [Int].
  pose proof (Z.rem_bound_pos (Int a) (Int b) Ha Hb) as Hr.
  destruct (Z.rem (Int a) (Int b) <? 0) eqn:R; [apply Z.ltb_lt in R; lia |].
  split; [reflexivity |].
  pose proof (Z.quot_rem' (Int a) (Int b)) as Hqr.
  do 3 f_equal. lia.
Qed.

Lemma DivMod_agrees_with_Div_witness :
  0 <= Int (mkCurrency 7) /\ 0 < Int (mkCurrency 2) /\
  exists q,
    Div (mkCurrency 7) (mkCurrency 2) = Ret q /\
    DivMod (mkCurrency 7) (mkCurrency 2)
    = Ret (q, mkCurrency (Int (mkCurrency 7) - Int (mkCurrency 2) * Int q)).
Proof.
  assert (H1 : 0 <= Int (mkCurrency 7)) by (cbn [Int]; lia).
  assert (H2 : 0 < Int (mkCurrency 2)) by (cbn [Int]; lia).
  split; [exact H1 |]. split; [exact H2 |].
  exact (DivMod_agrees_with_Div (mkCurrency 7) (mkCurrency 2) H1 H2).
Defined.

(** ** Signs on whole numbers *)

Section Signs.

Lemma count_dots_signed (c : ascii) (ip : gostring) :
  is_dot c = false -> all_digits ip -> count_dots (c :: ip) = 0%nat.
Proof.
  intros Hc Hi. rewrite count_dots_cons, Hc. now apply digits_no_dot.
Qed.

Lemma minus_denotes (ip : gostring) :
  all_digits ip -> 0 < len ip ->
  int_part_denotes (zstripPre ("-"%char :: ip)) (- dval ip).
Proof.
  intros Hi Hl. right. rewrite zstripPre_keep by reflexivity.
  now apply lit_minus.
Qed.

Lemma plus_denotes (ip : gostring) :
  all_digits ip -> 0 < len ip ->
  int_part_denotes (zstripPre ("+"%char :: ip)) (dval ip).
Proof.
  intros Hi Hl. right. rewrite zstripPre_keep by reflexivity.
  now apply lit_plus.
Qed.

End Signs.

(** X21.  A plus sign in front of a non-empty run of integer digits changes
    nothing: parsed into a fresh zero value, the input with the sign and the
    input without it give the same value. *)
Theorem parse_plus_sign (ip fp : gostring) :
  all_digits ip -> 0 < len ip -> all_digits fp ->
  parse 0 (("+"%char :: ip) ++ "."%char :: fp) = parse 0 (ip ++ "."%char :: fp) /\
  parse 0 ("+"%char :: ip) = parse 0 ip.
Proof.
  intros Hi Hl Hf.
  pose proof (plus_denotes ip Hi Hl) as Hp.
  pose proof (digits_denote ip Hi) as Hd.
  pose proof (count_dots_signed "+"%char ip eq_refl Hi) as Hc.
  split.
  - rewrite (parse_dotted 0 (dval ip) _ fp Hc (digits_no_dot fp Hf)
               (all_digits_firstn 18 fp Hf) Hp).
    rewrite (parse_dotted 0 (dval ip) ip fp (digits_no_dot ip Hi)
               (digits_no_dot fp Hf) (all_digits_firstn 18 fp Hf) Hd).
    now rewrite (denoted_or_zero _ _ Hp), (denoted_or_zero _ _ Hd).
  - rewrite (parse_plain 0 (dval ip) _ Hc Hp).
    rewrite (parse_plain 0 (dval ip) ip (digits_no_dot ip Hi) Hd).
    now rewrite (denoted_or_zero _ _ Hp), (denoted_or_zero _ _ Hd).
Qed.

Lemma parse_plus_sign_witness :
  all_digits (gs "007") /\ 0 < len (gs "007") /\ all_digits (gs "25") /\
  parse 0 (("+"%char :: gs "007") ++ "."%char :: gs "25")
  = parse 0 (gs "007" ++ "."%char :: gs "25") /\
  parse 0 ("+"%char :: gs "007") = parse 0 (gs "007").
Proof.
  assert (H1 : all_digits (gs "007")) by reflexivity.
  assert (H2 : 0 < len (gs "007")) by reflexivity.
  assert (H3 : all_digits (gs "25")) by reflexivity.
  split; [exact H1 |]. split; [exact H2 |]. split; [exact H3 |].
  exact (parse_plus_sign (gs "007") (gs "25") H1 H2 H3).
Defined.

(** X22.  A minus sign in front of a whole number negates it: for a
    non-empty run of digits, alone or followed by a dot and zeros only, the
    value parsed into a fresh zero value is minus the number of units the
    digits denote. *)
Theorem parse_negative_whole (ip : gostring) (j : nat) :
  all_digits ip -> 0 < len ip ->
  parse 0 ("-"%char :: ip) = Ok (- dval ip * 10 ^ 18) /\
  parse 0 (("-"%char :: ip) ++ "."%char :: repeat "0"%char j)
  = Ok (- dval ip * 10 ^ 18).
Proof.
  intros Hi Hl.
  pose proof (minus_denotes ip Hi Hl) as Hp.
  pose proof (count_dots_signed "-"%char ip eq_refl Hi) as Hc.
  split.
  - rewrite (parse_plain 0 (- dval ip) _ Hc Hp).
    now rewrite (denoted_or_zero _ _ Hp).
  - pose proof (all_digits_zeros j) as Hz.
    rewrite (parse_dotted 0 (- dval ip) _ _ Hc (digits_no_dot _ Hz)
               (all_digits_firstn 18 _ Hz) Hp).
    rewrite (denoted_or_zero _ _ Hp).
    rewrite <- (app_nil_l (repeat "0"%char j)), frac_units_app_zeros.
    rewrite frac_units_nil. f_equal. lia.
Qed.

Lemma parse_negative_whole_witness :
  all_digits (gs "12") /\ 0 < len (gs "12") /\
  parse 0 ("-"%char :: gs "12") = Ok (- dval (gs "12") * 10 ^ 18) /\
  parse 0 (("-"%char :: gs "12") ++ "."%char :: repeat "0"%char 3)
  = Ok (- dval (gs "12") * 10 ^ 18).
Proof.
  assert (H1 : all_digits (gs "12")) by reflexivity.
  assert (H2 : 0 < len (gs "12")) by reflexivity.
  split; [exact H1 |]. split; [exact H2 |].
  exact (parse_negative_whole (gs "12") 3 H1 H2).
Defined.

(** X23.  A negative value that is a whole number of units survives the
    JSON round trip: unmarshalling what was marshalled into a fresh zero
    value gives the value back. *)
Theorem json_roundtrip_negative_whole (v : Currency) :
  Int v < 0 -> Int v mod 10 ^ 18 = 0 ->
  exists txt w,
    MarshalJSON v = Ok txt /\ UnmarshalJSON New txt = Ok w /\ Eq w v = true.
Proof.
  intros Hneg Hmod.
  assert (Hle : Int v <= - 10 ^ 18).
  { apply Z.mod_divide in Hmod; [| lia]. destruct Hmod as [k Hk]. lia. }
  destruct (stringify_sign_in_whole (Int v) ltac:(lia))
    as (m & x & Hs & Hm & Hx & Hlx & Hv).
  pose proof (dval_bounds x Hx) as Hb. rewrite Hlx in Hb.
  assert (Hx0 : dval x = 0).
  { assert (Hm' : (- Int v) mod 10 ^ 18 = dval x)
      by (symmetry; apply (Z.mod_unique _ _ (dval m)); lia).
    rewrite <- Hm'. apply Z.mod_divide; [lia |].
    apply Z.mod_divide in Hmod; [| lia]. now apply Z.divide_opp_r. }
  assert (Hlm : 0 < len m).
  { destruct m as [| c m]; [| apply len_pos_cons].
    rewrite dval_nil in Hv. lia. }
  exists (("-"%char :: m) ++ "."%char :: x), (mkCurrency (Int v)).
  split; [unfold MarshalJSON, String; now rewrite Hs |].
  split.
  - unfold UnmarshalJSON, New. cbn [Int].
    pose proof (minus_denotes m Hm Hlm) as Hp.
    rewrite (parse_dotted 0 (- dval m) _ x
               (count_dots_signed "-"%char m eq_refl Hm)
               (digits_no_dot x Hx) (all_digits_firstn 18 x Hx) Hp).
    rewrite (denoted_or_zero _ _ Hp), (frac_units_full x Hlx).
    do 2 f_equal. lia.
  - unfold Eq. apply zero_eqb_Cmp. reflexivity.
Qed.

Lemma json_roundtrip_negative_whole_witness :
  Int (mkCurrency (-12000000000000000000)) < 0 /\
  Int (mkCurrency (-12000000000000000000)) mod 10 ^ 18 = 0 /\
  exists txt w,
    MarshalJSON (mkCurrency (-12000000000000000000)) = Ok txt /\
    UnmarshalJSON New txt = Ok w /\
    Eq w (mkCurrency (-12000000000000000000)) = true.
Proof.
  assert (H1 : Int (mkCurrency (-12000000000000000000)) < 0)
    by (cbn [Int]; lia).
  assert (H2 : Int (mkCurrency (-12000000000000000000)) mod 10 ^ 18 = 0)
    by reflexivity.
  split; [exact H1 |]. split; [exact H2 |].
  exact (json_roundtrip_negative_whole (mkCurrency (-12000000000000000000))
           H1 H2).
Defined.
